(** * LLASTAKS RAG pipeline: faiss-wrap vector store, ingestion chunker and
    chatbot context assembler, shallowly embedded in Rocq.

    Python strings are modelled as lists of Unicode code points ([Z]), so
    that [len] is [length].  Python values stored in JSON-like metadata are
    modelled by their scalar forms. *)

From Stdlib Require Import String Ascii ZArith QArith Lia Bool Sorted Permutation List.
Import ListNotations.

Module Py.

Local Open Scope Z_scope.

(** A Python [str]: its sequence of code points. *)
Definition pystr := list Z.

(** ASCII literal helper for writing concrete strings. *)
Definition of_ascii (s : string) : pystr :=
  map (fun c => Z.of_nat (nat_of_ascii c)) (list_ascii_of_string s).

Definition pystr_eqb (a b : pystr) : bool :=
  if list_eq_dec Z.eq_dec a b then true else false.

(** [str.isspace] / regex [\s] on str patterns: Unicode whitespace. *)
Definition is_space (c : Z) : bool :=
  ((9 <=? c) && (c <=? 13)) || ((28 <=? c) && (c <=? 32)) ||
  (c =? 133) || (c =? 160) || (c =? 5760) ||
  ((8192 <=? c) && (c <=? 8202)) || (c =? 8232) || (c =? 8233) ||
  (c =? 8239) || (c =? 8287) || (c =? 12288).

Fixpoint lstrip (s : pystr) : pystr :=
  match s with
  | c :: t => if is_space c then lstrip t else s
  | [] => []
  end.

Definition rstrip (s : pystr) : pystr := rev (lstrip (rev s)).

(** [s.strip()] *)
Definition strip (s : pystr) : pystr := rstrip (lstrip s).

(** [sep.join(parts)] *)
Fixpoint join (sep : pystr) (parts : list pystr) : pystr :=
  match parts with
  | [] => []
  | [p] => p
  | p :: rest => p ++ sep ++ join sep rest
  end.

(** Decimal rendering of a non-negative integer ([str(n)]). *)
Fixpoint digits_of (fuel : nat) (n : Z) (acc : pystr) : pystr :=
  match fuel with
  | O => acc
  | S f =>
      let acc' := (48 + n mod 10) :: acc in
      if n / 10 =? 0 then acc' else digits_of f (n / 10) acc'
  end.

Definition str_int (z : Z) : pystr :=
  if z <? 0 then 45 :: digits_of (S (Z.to_nat (Z.log2 (- z)))) (- z) []
  else digits_of (S (Z.to_nat (Z.log2 z))) z [].

(** Scalar Python values found in metadata mappings. *)
Inductive pyval :=
| PyNone
| PyBool (b : bool)
| PyInt (z : Z)
| PyStr (s : pystr).

(** Python truthiness, used by [x or y]. *)
Definition truthy (v : pyval) : bool :=
  match v with
  | PyNone => false
  | PyBool b => b
  | PyInt z => negb (z =? 0)
  | PyStr s => negb (match s with [] => true | _ => false end)
  end.

(** [str(v)] *)
Definition py_str (v : pyval) : pystr :=
  match v with
  | PyNone => of_ascii "None"
  | PyBool true => of_ascii "True"
  | PyBool false => of_ascii "False"
  | PyInt z => str_int z
  | PyStr s => s
  end.

(** A Python dict with string keys, as an association list. *)
Definition pydict := list (pystr * pyval).

(** [d.get(k)]: [None] when the key is absent. *)
Fixpoint dict_get (d : pydict) (k : pystr) : option pyval :=
  match d with
  | [] => None
  | (k', v) :: rest => if pystr_eqb k k' then Some v else dict_get rest k
  end.

Definition get_or_none (d : pydict) (k : pystr) : pyval :=
  match dict_get d k with Some v => v | None => PyNone end.

(** [s.startswith(p)] *)
Definition startswith (p s : pystr) : bool := pystr_eqb (firstn (length p) s) p.

(** [s.endswith(p)] *)
Definition endswith (p s : pystr) : bool :=
  (length p <=? length s)%nat && pystr_eqb (skipn (length s - length p) s) p.

(** [sub in s] *)
Fixpoint contains (sub s : pystr) : bool :=
  startswith sub s || match s with [] => false | _ :: t => contains sub t end.

(** [s.rfind(sub)], scanning [s] from position [i]: the highest position
    where [sub] starts, or -1. *)
Fixpoint rfind_from (sub s : pystr) (i : Z) : Z :=
  match s with
  | [] => if startswith sub [] then i else -1
  | _ :: t =>
      let r := rfind_from sub t (i + 1) in
      if r =? -1 then (if startswith sub s then i else -1) else r
  end.

Definition rfind (sub s : pystr) : Z := rfind_from sub s 0.

(** [s.lstrip(chars)] and [s.rstrip(chars)] *)
Fixpoint lstrip_chars (chars : list Z) (s : pystr) : pystr :=
  match s with
  | c :: t => if existsb (Z.eqb c) chars then lstrip_chars chars t else s
  | [] => []
  end.

Definition rstrip_chars (chars : list Z) (s : pystr) : pystr :=
  rev (lstrip_chars chars (rev s)).

(** [s.split(sep, 1)] for a one-character separator. *)
Fixpoint split1 (sep : Z) (s : pystr) : list pystr :=
  match s with
  | [] => [[]]
  | c :: t =>
      if c =? sep then [[]; t]
      else match split1 sep t with
           | p :: ps => (c :: p) :: ps
           | [] => [[c]]
           end
  end.

(** [range(start, stop, step)]; [None] is the [ValueError] raised for a
    zero step. *)
Fixpoint range_up (fuel : nat) (i stop step : Z) : list Z :=
  match fuel with
  | O => []
  | S f => if i <? stop then i :: range_up f (i + step) stop step else []
  end.

Fixpoint range_down (fuel : nat) (i stop step : Z) : list Z :=
  match fuel with
  | O => []
  | S f => if stop <? i then i :: range_down f (i + step) stop step else []
  end.

Definition py_range (start stop step : Z) : option (list Z) :=
  if step =? 0 then None
  else if 0 <? step then Some (range_up (Z.to_nat (stop - start)) start stop step)
  else Some (range_down (Z.to_nat (start - stop)) start stop step).

(** [l[i:j]] for [0 <= i]. *)
Definition slice {A} (l : list A) (i j : Z) : list A :=
  firstn (Z.to_nat j - Z.to_nat i) (skipn (Z.to_nat i) l).

(** [l[i] = x] for an index in range. *)
Fixpoint list_set {A} (l : list A) (i : nat) (x : A) : list A :=
  match l, i with
  | [], _ => []
  | _ :: t, O => x :: t
  | h :: t, S i' => h :: list_set t i' x
  end.

End Py.
Import Py.

(** * faiss-wrap: the vector store of [faiss-wrap/backend/main.py] *)
Module FaissWrap.

Local Open Scope Z_scope.

Section Store.

(** The embedding vectors, the model's encoder of one text
    ([_model.encode] on a batch is the map of it), [faiss.normalize_L2]
    on one row, and the inner product used by [IndexFlatIP]. *)
Variable vec : Type.
Variable encode : pystr -> vec.
Variable normalize_L2 : vec -> vec.
Variable inner : vec -> vec -> Q.

(** [UpsertItem] *)
Record item := mk_item {
  it_id : pystr;
  it_text : pystr;
  it_metadata : option pydict
}.

(** A row of [_meta_df] (columns id, text, metadata). *)
Record row := mk_row {
  row_id : pystr;
  row_text : pystr;
  row_metadata : pydict
}.

(** The module globals: [_model]/[_index]/[_meta_df] all set ([ready]),
    the FAISS index as its ordered vectors, the metadata frame as its
    ordered rows, and the last persisted pair on disk. *)
Record store := mk_store {
  ready : bool;
  index : list vec;
  meta_df : list row;
  disk : option (list vec * list row)
}.

(** An HTTP call either returns a JSON body or raises [HTTPException]. *)
Inductive outcome (A : Type) :=
| Ok (a : A)
| HttpError (status : Z).
Arguments Ok {A} a.
Arguments HttpError {A} status.

(** [_embed(texts)] *)
Definition _embed (texts : list pystr) : list vec := map encode texts.

(** [_persist()]: write the index and the metadata frame. *)
Definition _persist (st : store) : store :=
  mk_store (ready st) (index st) (meta_df st) (Some (index st, meta_df st)).

(** [x in ids] as used by [Series.isin]. *)
Definition isin (x : pystr) (ids : list pystr) : bool :=
  existsb (pystr_eqb x) ids.

Definition metadata_or_empty (m : option pydict) : pydict :=
  match m with Some d => d | None => [] end.

(** [upsert(req)]; the rows dropped by label are exactly the masked rows,
    the frame's index being a fresh range index after every concat or
    parquet load. *)
Definition upsert (items : list item) (st : store) : outcome pydict * store :=
  if negb (ready st) then (HttpError 503, st) else
  match items with
  | [] => (Ok [(of_ascii "upserted", PyInt 0)], st)
  | _ =>
    let ids := map it_id items in
    let texts := map it_text items in
    let metas := map (fun it => metadata_or_empty (it_metadata it)) items in
    let embs := map normalize_L2 (_embed texts) in
    let n := Z.of_nat (length ids) in
    (* with _lock: *)
    let existing := existsb (fun r => isin (row_id r) ids) (meta_df st) in
    let st1 :=
      if existing then
        let remaining := filter (fun r => negb (isin (row_id r) ids)) (meta_df st) in
        match remaining with
        | _ :: _ =>
            let re_embs := map normalize_L2 (_embed (map row_text remaining)) in
            (* _replace_index(new_index); _meta_df.drop(...) *)
            mk_store (ready st) re_embs remaining (disk st)
        | [] => mk_store (ready st) [] [] (disk st)
        end
      else st in
    (* _index.add(embs) *)
    let st2 := mk_store (ready st1) (index st1 ++ embs) (meta_df st1) (disk st1) in
    (* _meta_df = pd.concat([_meta_df, new_df]) *)
    let new_rows := map (fun '(i, t, m) => mk_row i t m) (combine (combine ids texts) metas) in
    let st3 := mk_store (ready st2) (index st2) (meta_df st2 ++ new_rows) (disk st2) in
    let st4 := _persist st3 in
    (Ok [(of_ascii "upserted", PyInt n);
         (of_ascii "total_items", PyInt (Z.of_nat (length (meta_df st4))))], st4)
  end.

(** [reset()] *)
Definition reset (st : store) : outcome pydict * store :=
  if negb (ready st) then (HttpError 503, st) else
  let st' := _persist (mk_store (ready st) [] [] (disk st)) in
  (Ok [(of_ascii "message", PyStr (of_ascii "All data cleared"));
       (of_ascii "total_items", PyInt 0)], st').

(** [IndexFlatIP.search(q, k)] on one query: exact inner-product ranking,
    best first, padded with label -1 when [k] exceeds the index size.
    Equal scores keep insertion order (one admissible tie order). *)
Fixpoint insert_desc (p : Q * Z) (l : list (Q * Z)) : list (Q * Z) :=
  match l with
  | [] => [p]
  | h :: t => if negb (Qle_bool (fst p) (fst h)) then p :: l else h :: insert_desc p t
  end.

Definition faiss_missing_score : Q := -1.

Definition flat_search (idx : list vec) (q : vec) (k : Z) : list (Q * Z) :=
  let scored := combine (map (inner q) idx) (map Z.of_nat (seq 0 (length idx))) in
  let ranked := fold_left (fun acc p => insert_desc p acc) scored [] in
  let top := firstn (Z.to_nat k) ranked in
  top ++ repeat (faiss_missing_score, -1) (Z.to_nat k - length top)%nat.

(** A result of [/search]. *)
Record search_result := mk_result {
  sr_id : pystr;
  sr_text : pystr;
  sr_metadata : pydict;
  sr_score : Q
}.

(** Calls made to the embedder and to the index during a search. *)
Inductive event :=
| EvEmbed (texts : list pystr)
| EvIndexSearch (k : Z).

Fixpoint collect_results (meta : list row) (hits : list (Q * Z)) : list search_result :=
  match hits with
  | [] => []
  | (score, idx) :: rest =>
      if (idx <? 0) || (Z.of_nat (length meta) <=? idx) then collect_results meta rest
      else match nth_error meta (Z.to_nat idx) with
           | Some r => mk_result (row_id r) (row_text r) (row_metadata r) score
                         :: collect_results meta rest
           | None => collect_results meta rest
           end
  end.

(** [search(req)]: the result and the log of embedder/index calls.
    The store is read, never written. *)
Definition search (query : pystr) (top_k : Z) (st : store)
  : outcome (list search_result) * list event :=
  if negb (ready st) then (HttpError 503, []) else
  match strip query with
  | [] => (Ok [], [])
  | q =>
    let top_k := Z.max 1 (Z.min top_k 50) in
    let q_emb := map normalize_L2 (_embed [q]) in
    let log := [EvEmbed [q]] in
    match index st, q_emb with
    | [], _ => (Ok [], log)
    | _, [qv] =>
        (Ok (collect_results (meta_df st) (flat_search (index st) qv top_k)),
         log ++ [EvIndexSearch top_k])
    | _, _ => (Ok [], log)
    end
  end.

(** The operations that mutate the store. *)
Inductive op :=
| OpUpsert (items : list item)
| OpReset.

Definition apply_op (st : store) (o : op) : store :=
  match o with
  | OpUpsert items => snd (upsert items st)
  | OpReset => snd (reset st)
  end.

Definition run_ops (ops : list op) (st : store) : store := fold_left apply_op ops st.

(** Positional alignment of the index with the metadata rows. *)
Definition aligned (st : store) : Prop :=
  index st = map (fun r => normalize_L2 (encode (row_text r))) (meta_df st).

(** The state after [lifespan] created a new empty index. *)
Definition startup_fresh : store := mk_store true [] [] None.

Definition count_id (x : pystr) (rows : list row) : nat :=
  length (filter (fun r => pystr_eqb (row_id r) x) rows).

End Store.

Arguments store : clear implicits.
Arguments Ok {A} a.
Arguments HttpError {A} status.
Arguments mk_store {vec} ready index meta_df disk.
Arguments ready {vec} s.
Arguments index {vec} s.
Arguments meta_df {vec} s.
Arguments disk {vec} s.
Arguments _embed {vec} encode texts.
Arguments _persist {vec} st.
Arguments upsert {vec} encode normalize_L2 items st.
Arguments reset {vec} st.
Arguments flat_search {vec} inner idx q k.
Arguments search {vec} encode normalize_L2 inner query top_k st.
Arguments apply_op {vec} encode normalize_L2 st o.
Arguments run_ops {vec} encode normalize_L2 ops st.
Arguments aligned {vec} encode normalize_L2 st.
Arguments startup_fresh {vec}.

End FaissWrap.

(** * Ingestion: [ingest/ingest.py] *)
Module Ingest.

Local Open Scope Z_scope.

(** [t.replace("\xa0", " ")] *)
Definition replace_nbsp (t : pystr) : pystr :=
  map (fun c => if c =? 160 then 32 else c) t.

Definition is_tab_cr_ff (c : Z) : bool := (c =? 9) || (c =? 13) || (c =? 12).

(** [re.sub(r"[p]+", " ", s)]: every maximal run of [p]-characters becomes
    one space. *)
Fixpoint sub_runs (p : Z -> bool) (in_run : bool) (s : pystr) : pystr :=
  match s with
  | [] => []
  | c :: t =>
      if p c then (if in_run then sub_runs p true t else 32 :: sub_runs p true t)
      else c :: sub_runs p false t
  end.

(** [clean_text] *)
Definition clean_text (t : pystr) : pystr :=
  strip (sub_runs is_space false (sub_runs is_tab_cr_ff false (replace_nbsp t))).

(** [valid_chunk] *)
Definition valid_chunk (t : pystr) : bool := 20 <=? Z.of_nat (length t).

(** [len(s.split())] *)
Fixpoint count_words (in_word : bool) (s : pystr) : Z :=
  match s with
  | [] => 0
  | c :: t =>
      if is_space c then count_words false t
      else if in_word then count_words true t else 1 + count_words true t
  end.

(** [f"{idx:04d}"] for a non-negative index *)
Definition zfill4 (n : Z) : pystr :=
  let d := str_int n in repeat 48 (4 - length d)%nat ++ d.

(** A chunk dict: id, text, metadata, [_row_hash], [_token_count]. *)
Record chunk := mk_chunk {
  c_id : pystr;
  c_text : pystr;
  c_metadata : pydict;
  c_row_hash : pystr;
  c_token_count : Z
}.

(** A source document as [process_one] sees it: its doc id, its source
    URI, and its extracted pages, or [None] when download or extraction
    raised (the document then contributes no chunk). *)
Record document := mk_document {
  d_doc_id : pystr;
  d_source_uri : pystr;
  d_pages : option (list pystr)
}.

Section Chunker.

(** [sha256_hex]: the hex digest of the UTF-8 encoding. *)
Variable sha256_hex : pystr -> pystr.

(** The loop of [make_chunks] building one chunk per valid page. *)
Fixpoint build_chunks (doc_id source_uri : pystr) (idx : Z) (pages : list pystr)
  : list chunk :=
  match pages with
  | [] => []
  | raw :: rest =>
      let cleaned := clean_text raw in
      if negb (valid_chunk cleaned) then build_chunks doc_id source_uri (idx + 1) rest
      else
        mk_chunk (doc_id ++ of_ascii "#page-" ++ zfill4 idx) cleaned
          [(of_ascii "doc_id", PyStr doc_id);
           (of_ascii "source_uri", PyStr (source_uri ++ of_ascii "#page=" ++ str_int idx));
           (of_ascii "page", PyInt idx);
           (of_ascii "lang", PyStr (of_ascii "fr"))]
          (sha256_hex cleaned) (count_words false cleaned)
        :: build_chunks doc_id source_uri (idx + 1) rest
  end.

(** The dedupe loop of [make_chunks], with the set [seen] of hashes. *)
Fixpoint dedupe (seen : list pystr) (cs : list chunk) : list chunk :=
  match cs with
  | [] => []
  | c :: rest =>
      if existsb (pystr_eqb (c_row_hash c)) seen then dedupe seen rest
      else c :: dedupe (c_row_hash c :: seen) rest
  end.

(** [make_chunks(doc_id, source_uri, pages)] *)
Definition make_chunks (doc_id source_uri : pystr) (pages : list pystr) : list chunk :=
  dedupe [] (build_chunks doc_id source_uri 1 pages).

(** [process_one(source)] *)
Definition process_one (d : document) : list chunk :=
  match d_pages d with
  | Some pages => make_chunks (d_doc_id d) (d_source_uri d) pages
  | None => []
  end.

(** [all_chunks] in [main]: the chunk lists of the documents extended one
    after the other, in the order the futures complete. *)
Definition all_chunks (completed : list document) : list chunk :=
  flat_map process_one completed.

End Chunker.

(** The chunks sent to [/upsert] (in batches) outside dry-run mode. *)
Definition chunks_to_upsert (all : list chunk) (max_chunks : Z) : list chunk :=
  if 0 <? max_chunks then firstn (Z.to_nat max_chunks) all else all.

(** The [page] metadata of a chunk. *)
Definition page_of (c : chunk) : option pyval := dict_get (c_metadata c) (of_ascii "page").

(** The 1-based index of the first page, from [idx], that cleans to [t]
    and passes the validity filter. *)
Fixpoint first_page_from (idx : Z) (t : pystr) (pages : list pystr) : option Z :=
  match pages with
  | [] => None
  | raw :: rest =>
      if valid_chunk (clean_text raw) && pystr_eqb (clean_text raw) t then Some idx
      else first_page_from (idx + 1) t rest
  end.

Definition has_text (t : pystr) (c : chunk) : bool := pystr_eqb (c_text c) t.

(** [parse_s3_uri(uri)]; [None] is the [ValueError] of a URI that does not
    start with [s3://]. *)
Definition parse_s3_uri (uri : pystr) : option (pystr * pystr) :=
  if negb (startswith (of_ascii "s3://") uri) then None
  else
    let bucket_key := skipn 5 uri in
    let parts := split1 47 bucket_key in
    let bucket := nth 0 parts [] in
    let prefix := if (1 <? length parts)%nat then nth 1 parts [] else [] in
    Some (bucket, rstrip_chars [47] prefix).

(** The object URIs built by [list_s3_pdfs]: [f"s3://{bucket}/{k}"]. *)
Definition s3_object_uri (bucket key : pystr) : pystr :=
  of_ascii "s3://" ++ bucket ++ [47] ++ key.

(** [batched(iterable, n)]: the slices [iterable[i:i+n]] for [i] in
    [range(0, len(iterable), n)]; [None] when [n] is 0 ([range] raises). *)
Definition batched {A} (iterable : list A) (n : Z) : option (list (list A)) :=
  match py_range 0 (Z.of_nat (length iterable)) n with
  | None => None
  | Some starts => Some (map (fun i => slice iterable i (i + n)) starts)
  end.

End Ingest.

(** * Context assembly: [chatbot-RAG/backend/main.py] *)
Module Context.

Local Open Scope Z_scope.

(** A search result as received from faiss-wrap's JSON: [text] and
    [metadata] ([None] when absent, null or empty) and [score]. *)
Record ctx_result := mk_ctx {
  cr_text : option pystr;
  cr_metadata : option pydict;
  cr_score : option Q
}.

Definition RAG_MIN_SCORE_default : Q := 1 # 2.
Definition MAX_CONTEXT_CHARS_default : Z := 4000.

(** [r.get("score", 0)] *)
Definition score_or_0 (r : ctx_result) : Q :=
  match cr_score r with Some q => q | None => 0 end.

(** The filter of [retrieve_context]. *)
Definition retrieve_filter (min_score : Q) (results : list ctx_result) : list ctx_result :=
  filter (fun r => Qle_bool min_score (score_or_0 r)) results.

(** [a or b] *)
Definition py_or (a b : pyval) : pyval := if truthy a then a else b.

(** The rendered [snippet] of result number [i]. *)
Definition render_snippet (i : Z) (r : ctx_result) : pystr :=
  let text := strip (match cr_text r with Some s => s | None => [] end) in
  let meta := match cr_metadata r with Some d => d | None => [] end in
  let src := py_or (get_or_none meta (of_ascii "source"))
              (py_or (get_or_none meta (of_ascii "file"))
                (py_or (get_or_none meta (of_ascii "s3_key")) (PyStr (of_ascii "unknown")))) in
  let page := get_or_none meta (of_ascii "page") in
  let header := of_ascii "[" ++ str_int i ++ of_ascii "] Source: " ++ py_str src
                ++ match page with PyNone => [] | _ => of_ascii " p." ++ py_str page end in
  header ++ [10] ++ text ++ [10].

(** The packing loop: the snippets appended to [lines]. *)
Fixpoint pack (limit : Z) (i running : Z) (rs : list ctx_result) : list pystr :=
  match rs with
  | [] => []
  | r :: rest =>
      let snippet := render_snippet i r in
      if limit <? running + Z.of_nat (length snippet) then []
      else snippet :: pack limit (i + 1) (running + Z.of_nat (length snippet)) rest
  end.

Definition preamble : pystr :=
  of_ascii "You have access to the following context passages. Cite them when relevant." ++ [10].

(** [build_context_block(results, limit_chars)] *)
Definition build_context_block (results : list ctx_result) (limit_chars : Z) : pystr * nat :=
  match results with
  | [] => ([], 0%nat)
  | _ =>
      let snippets := pack limit_chars 1 0 results in
      (strip (join [10] (preamble :: snippets)), length snippets)
  end.

(** The context path of [chat_endpoint]: filter, then pack. *)
Definition chat_context (min_score : Q) (limit_chars : Z) (results : list ctx_result)
  : pystr * nat :=
  build_context_block (retrieve_filter min_score results) limit_chars.

Record message := mk_msg { role : pystr; content : pystr }.

Definition context_instruction : pystr :=
  of_ascii "You are a helpful assistant that uses retrieved context to answer. If the context is not sufficient, say so and proceed cautiously." ++ [10; 10].

(** [inject_context_into_messages(messages, context_block)] *)
Definition inject_context_into_messages (messages : list message) (context_block : pystr)
  : list message :=
  match context_block with
  | [] => messages
  | _ =>
      let system_msg := mk_msg (of_ascii "system") (context_instruction ++ context_block) in
      match messages with
      | m0 :: rest =>
          if pystr_eqb (role m0) (of_ascii "system") then m0 :: system_msg :: rest
          else system_msg :: messages
      | [] => [system_msg]
      end
  end.

(** Helpers for stating the packing bound: the summed length of a list of
    snippets, and the snippets of results numbered from [i]. *)
Definition total_len (sn : list pystr) : Z :=
  fold_right (fun s acc => Z.of_nat (length s) + acc) 0 sn.

Fixpoint render_from (i : Z) (rs : list ctx_result) : list pystr :=
  match rs with
  | [] => []
  | r :: rest => render_snippet i r :: render_from (i + 1) rest
  end.

End Context.

Module IngestExamples.

Import Ingest.

Definition statement_page : pystr := of_ascii "Statement of Account".

(** Two documents, each with one page whose cleaned text is the same. *)
Definition two_docs : list document :=
  [mk_document (of_ascii "a") (of_ascii "s3://bucket/a.pdf") (Some [statement_page]);
   mk_document (of_ascii "b") (of_ascii "s3://bucket/b.pdf") (Some [statement_page])].

End IngestExamples.

(** * Locking in faiss-wrap: interleaved [upsert]/[reset] calls

    Each request runs in its own thread.  A thread's program is the
    sequence of global-state steps of one call, in source order, with the
    acquisition and release of [_lock] made explicit; the scheduler
    interleaves the steps of the threads. *)
Module LockModel.

Inductive instr :=
| CheckReady     (* if _model is None or _index is None or _meta_df is None *)
| EmbedNew       (* embs = _embed(texts) *)
| NormalizeNew   (* faiss.normalize_L2(embs) *)
| Acquire        (* with _lock: (enter) *)
| ComputeMask    (* existing_mask = _meta_df['id'].isin(ids) *)
| EmbedKept      (* re_embs = _embed(re_texts); faiss.normalize_L2(re_embs) *)
| ReplaceIndex   (* _replace_index(new_index) / _index = faiss.IndexFlatIP(...) *)
| DropRows       (* _meta_df.drop(..., inplace=True) *)
| ClearMeta      (* _meta_df = pd.DataFrame(columns=[...]) *)
| AddNew         (* _index.add(embs) *)
| ConcatMeta     (* _meta_df = pd.concat([_meta_df, new_df]) *)
| Persist        (* _persist() *)
| SetGauges      (* INDEX_SIZE_GAUGE.set(...); METADATA_SIZE_GAUGE.set(...) *)
| Release        (* with _lock: (exit) *)
| EmbedQuery     (* q_emb = _embed([q]); faiss.normalize_L2(q_emb) *)
| ReadIndex      (* if _index.ntotal == 0: ...; D, I = _index.search(q_emb, top_k) *)
| ReadMeta       (* idx >= len(_meta_df) ...; row = _meta_df.iloc[idx] *)
| Return.

(** [upsert] when no stored id is in the batch. *)
Definition upsert_append_path : list instr :=
  [CheckReady; EmbedNew; NormalizeNew; Acquire; ComputeMask; AddNew; ConcatMeta;
   Persist; SetGauges; Release; Return].

(** [upsert] when some stored ids are replaced and other rows remain. *)
Definition upsert_rebuild_path : list instr :=
  [CheckReady; EmbedNew; NormalizeNew; Acquire; ComputeMask; EmbedKept; ReplaceIndex;
   DropRows; AddNew; ConcatMeta; Persist; SetGauges; Release; Return].

(** [upsert] when every stored row is replaced. *)
Definition upsert_clear_path : list instr :=
  [CheckReady; EmbedNew; NormalizeNew; Acquire; ComputeMask; ReplaceIndex; DropRows;
   AddNew; ConcatMeta; Persist; SetGauges; Release; Return].

(** [upsert] with an empty item list. *)
Definition upsert_empty_path : list instr := [CheckReady; Return].

(** [reset] *)
Definition reset_path : list instr :=
  [CheckReady; Acquire; ReplaceIndex; ClearMeta; Persist; Release; Return].

(** [search] with a non-blank query on a non-empty index. *)
Definition search_path : list instr :=
  [CheckReady; EmbedQuery; ReadIndex; ReadMeta; Return].

(** [search] with a non-blank query on an empty index. *)
Definition search_empty_index_path : list instr :=
  [CheckReady; EmbedQuery; ReadIndex; Return].

(** [search] with a blank query. *)
Definition search_blank_path : list instr := [CheckReady; Return].

Definition programs : list (list instr) :=
  [upsert_append_path; upsert_rebuild_path; upsert_clear_path; upsert_empty_path; reset_path;
   search_path; search_empty_index_path; search_blank_path].

Definition upsert_programs : list (list instr) :=
  [upsert_append_path; upsert_rebuild_path; upsert_clear_path; upsert_empty_path].

(** The steps the spec places under the lock. *)
Definition spec_locked (i : instr) : bool :=
  match i with
  | EmbedNew | NormalizeNew | EmbedKept | ReplaceIndex | DropRows | ClearMeta
  | AddNew | ConcatMeta | Persist => true
  | _ => false
  end.

(** The steps of [upsert] and [reset] that read or write the shared
    index/metadata pair. *)
Definition mutation (i : instr) : bool :=
  match i with
  | ComputeMask | EmbedKept | ReplaceIndex | DropRows | ClearMeta | AddNew
  | ConcatMeta | Persist | SetGauges => true
  | _ => false
  end.

(** The embedding of the new texts of [upsert] and the steps of [search]. *)
Definition unlocked (i : instr) : bool :=
  match i with
  | EmbedNew | NormalizeNew | EmbedQuery | ReadIndex | ReadMeta => true
  | _ => false
  end.

Definition is_acquire (i : instr) : bool := match i with Acquire => true | _ => false end.
Definition is_release (i : instr) : bool := match i with Release => true | _ => false end.

Record thread := mk_thread { prog : list instr; pc : nat }.

(** The threads and the owner of [_lock], if any. *)
Record config := mk_config { threads : list thread; lock : option nat }.

(** One executed step: the thread, its instruction, and the lock owner at
    that moment. *)
Record event := mk_event { ev_thread : nat; ev_instr : instr; ev_lock : option nat }.

Fixpoint set_nth {A} (n : nat) (x : A) (l : list A) {struct l} : list A :=
  match l, n with
  | [], _ => []
  | _ :: t, O => x :: t
  | h :: t, S n' => h :: set_nth n' x t
  end.

Definition owner_is (o : option nat) (t : nat) : bool :=
  match o with Some t' => Nat.eqb t' t | None => false end.

(** Thread [t] executes its next instruction; [None] when it has finished
    or blocks on [Acquire] while another thread owns the lock. *)
Definition step (c : config) (t : nat) : option (config * event) :=
  match nth_error (threads c) t with
  | None => None
  | Some th =>
      match nth_error (prog th) (pc th) with
      | None => None
      | Some i =>
          let ev := mk_event t i (lock c) in
          let ths := set_nth t (mk_thread (prog th) (S (pc th))) (threads c) in
          match i with
          | Acquire =>
              match lock c with
              | None => Some (mk_config ths (Some t), ev)
              | Some _ => None
              end
          | Release => if owner_is (lock c) t then Some (mk_config ths None, ev) else None
          | _ => Some (mk_config ths (lock c), ev)
          end
      end
  end.

(** Run a schedule (a list of thread choices; a blocked choice does
    nothing), returning the final configuration and the executed steps. *)
Fixpoint run (sched : list nat) (c : config) : config * list event :=
  match sched with
  | [] => (c, [])
  | t :: rest =>
      match step c t with
      | Some (c', ev) => let '(c'', evs) := run rest c' in (c'', ev :: evs)
      | None => run rest c
      end
  end.

Definition initial (progs : list (list instr)) : config :=
  mk_config (map (fun p => mk_thread p 0) progs) None.

Definition count_if (f : instr -> bool) (l : list instr) : nat := length (filter f l).

(** Thread position [n] of program [p] lies inside its critical section. *)
Definition inside (p : list instr) (n : nat) : bool :=
  Nat.ltb (count_if is_release (firstn n p)) (count_if is_acquire (firstn n p)).

(** Lock bracketing of a program, checked at every position: releases
    never outnumber acquisitions nor trail them by more than one, every
    mutation and every release happens inside, and the [unlocked] steps
    come before any acquisition. *)
Definition bracketed (p : list instr) : bool :=
  forallb (fun n =>
    let a := count_if is_acquire (firstn n p) in
    let r := count_if is_release (firstn n p) in
    Nat.leb r a && Nat.leb a (S r) &&
    match nth_error p n with
    | Some i => implb (mutation i || is_release i) (inside p n) &&
                implb (unlocked i) (Nat.eqb a 0)
    | None => true
    end) (seq 0 (S (length p))).

End LockModel.

(** A concrete embedder for evaluating the store on examples: a text's
    vector is its length, normalization is the identity, and the inner
    product is the product. *)
Module Toy.

Definition toy_encode (s : pystr) : Z := Z.of_nat (length s).
Definition toy_norm (v : Z) : Z := v.
Definition toy_inner (a b : Z) : Q := inject_Z (a * b).

Definition x_id : pystr := of_ascii "x".

Definition item_of (i t : string) : FaissWrap.item :=
  FaissWrap.mk_item (of_ascii i) (of_ascii t) None.

(** Upsert [x:alpha]; upsert [x:beta, y:gamma]; reset; upsert [x:delta]. *)
Definition ops_demo : list FaissWrap.op :=
  [FaissWrap.OpUpsert [item_of "x" "alpha"];
   FaissWrap.OpUpsert [item_of "x" "beta"; item_of "y" "gamma"];
   FaissWrap.OpReset;
   FaissWrap.OpUpsert [item_of "x" "delta"]].

(** A store reached by one batch that repeats the id x. *)
Definition store_dup_x : FaissWrap.store Z :=
  snd (FaissWrap.upsert toy_encode toy_norm
         [item_of "x" "alpha"; item_of "x" "alpha2"] FaissWrap.startup_fresh).

(** A store holding the single record x:alpha. *)
Definition store_one_x : FaissWrap.store Z :=
  snd (FaissWrap.upsert toy_encode toy_norm [item_of "x" "alpha"] FaissWrap.startup_fresh).

End Toy.

(** * Interleaved calls on the shared store

    The steps of [LockModel] acting on the module globals [_index] and
    [_meta_df] and on each call's local variables: the events of a schedule
    are replayed in order, each one on the request its thread serves. *)
Module Race.

Import FaissWrap.

Section Race.

Variable vec : Type.
Variable encode : pystr -> vec.
Variable normalize_L2 : vec -> vec.
Variable inner : vec -> vec -> Q.

(** The call a thread serves. *)
Inductive request :=
| RUpsert (items : list item)
| RReset
| RSearch (query : pystr) (top_k : Z).

(** The local variables of a call. *)
Record local := mk_local {
  l_embs : list vec;              (* embs *)
  l_mask : list bool;             (* existing_mask *)
  l_re_embs : list vec;           (* re_embs, the vectors added to new_index *)
  l_q_emb : list vec;             (* q_emb *)
  l_hits : list (Q * Z);          (* the pairs of D[0] and I[0] *)
  l_results : list search_result  (* results *)
}.

Definition local0 : local := mk_local [] [] [] [] [] [].

Definition set_embs (lc : local) (v : list vec) : local :=
  mk_local v (l_mask lc) (l_re_embs lc) (l_q_emb lc) (l_hits lc) (l_results lc).
Definition set_mask (lc : local) (m : list bool) : local :=
  mk_local (l_embs lc) m (l_re_embs lc) (l_q_emb lc) (l_hits lc) (l_results lc).
Definition set_re_embs (lc : local) (v : list vec) : local :=
  mk_local (l_embs lc) (l_mask lc) v (l_q_emb lc) (l_hits lc) (l_results lc).
Definition set_q_emb (lc : local) (v : list vec) : local :=
  mk_local (l_embs lc) (l_mask lc) (l_re_embs lc) v (l_hits lc) (l_results lc).
Definition set_hits (lc : local) (h : list (Q * Z)) : local :=
  mk_local (l_embs lc) (l_mask lc) (l_re_embs lc) (l_q_emb lc) h (l_results lc).
Definition set_results (lc : local) (r : list search_result) : local :=
  mk_local (l_embs lc) (l_mask lc) (l_re_embs lc) (l_q_emb lc) (l_hits lc) r.

(** [_meta_df[~existing_mask]], also the frame left by
    [_meta_df.drop(_meta_df[existing_mask].index, inplace=True)]. *)
Definition unmasked (rows : list row) (mask : list bool) : list row :=
  map fst (filter (fun p => negb (snd p)) (combine rows mask)).

(** One step of a call. On the path that clears the store, [EmbedKept]
    does not run and [new_index] receives no vector. A search's index
    step covers the [ntotal] test and [_index.search]; its metadata step
    is the loop over the hits. *)
Definition exec (req : request) (i : LockModel.instr) (sh : store vec) (lc : local)
  : store vec * local :=
  match req, i with
  | RUpsert items, LockModel.EmbedNew =>
      (sh, set_embs lc (_embed encode (map it_text items)))
  | RUpsert _, LockModel.NormalizeNew =>
      (sh, set_embs lc (map normalize_L2 (l_embs lc)))
  | RUpsert items, LockModel.ComputeMask =>
      (sh, set_mask lc (map (fun r => isin (row_id r) (map it_id items)) (meta_df sh)))
  | RUpsert _, LockModel.EmbedKept =>
      (sh, set_re_embs lc (map normalize_L2
                             (_embed encode (map row_text (unmasked (meta_df sh) (l_mask lc))))))
  | RUpsert _, LockModel.ReplaceIndex =>
      (mk_store (ready sh) (l_re_embs lc) (meta_df sh) (disk sh), lc)
  | RUpsert _, LockModel.DropRows =>
      (mk_store (ready sh) (index sh) (unmasked (meta_df sh) (l_mask lc)) (disk sh), lc)
  | RUpsert _, LockModel.AddNew =>
      (mk_store (ready sh) (index sh ++ l_embs lc) (meta_df sh) (disk sh), lc)
  | RUpsert items, LockModel.ConcatMeta =>
      let ids := map it_id items in
      let texts := map it_text items in
      let metas := map (fun it => metadata_or_empty (it_metadata it)) items in
      let new_rows := map (fun '(i, t, m) => mk_row i t m) (combine (combine ids texts) metas) in
      (mk_store (ready sh) (index sh) (meta_df sh ++ new_rows) (disk sh), lc)
  | RUpsert _, LockModel.Persist => (_persist sh, lc)
  | RReset, LockModel.ReplaceIndex => (mk_store (ready sh) [] (meta_df sh) (disk sh), lc)
  | RReset, LockModel.ClearMeta => (mk_store (ready sh) (index sh) [] (disk sh), lc)
  | RReset, LockModel.Persist => (_persist sh, lc)
  | RSearch query _, LockModel.EmbedQuery =>
      (sh, set_q_emb lc (map normalize_L2 (_embed encode [strip query])))
  | RSearch _ top_k, LockModel.ReadIndex =>
      (sh, set_hits lc (match index sh, l_q_emb lc with
                        | [], _ => []
                        | _, [qv] => flat_search inner (index sh) qv (Z.max 1 (Z.min top_k 50))
                        | _, _ => []
                        end))
  | RSearch _ _, LockModel.ReadMeta =>
      (sh, set_results lc (collect_results (meta_df sh) (l_hits lc)))
  | _, _ => (sh, lc)
  end.

(** Replay the executed steps on the globals and the threads' locals. *)
Definition replay (reqs : list request) (evs : list LockModel.event)
  (st : store vec * list local) : store vec * list local :=
  fold_left (fun '(sh, lcs) ev =>
    let t := LockModel.ev_thread ev in
    match nth_error reqs t, nth_error lcs t with
    | Some req, Some lc =>
        let '(sh', lc') := exec req (LockModel.ev_instr ev) sh lc in
        (sh', LockModel.set_nth t lc' lcs)
    | _, _ => (sh, lcs)
    end) evs st.

(** The calls [reqs], thread [t] following the path [nth t progs], run
    under the schedule [sched] from the globals [st]: the executed steps,
    then the final globals and locals. *)
Definition interleave (progs : list (list LockModel.instr)) (reqs : list request)
  (sched : list nat) (st : store vec) : list LockModel.event * (store vec * list local) :=
  let evs := snd (LockModel.run sched (LockModel.initial progs)) in
  (evs, replay reqs evs (st, repeat local0 (length reqs))).

End Race.

Arguments l_results {vec} l.
Arguments interleave {vec} encode normalize_L2 inner progs reqs sched st.

End Race.

(** An upsert replacing x in the store [x:a; y:bbb], and a search for "q"
    whose steps run between the upsert's index replacement and its row
    drop. *)
Module RaceExample.

Import FaissWrap Toy Race.

Definition race_store : store Z :=
  snd (upsert toy_encode toy_norm [item_of "x" "a"; item_of "y" "bbb"] startup_fresh).

Definition race_items : list item := [item_of "x" "cc"].

Definition race_progs : list (list LockModel.instr) :=
  [LockModel.upsert_rebuild_path; LockModel.search_path].

Definition race_reqs : list request := [RUpsert race_items; RSearch (of_ascii "q") 1].

Definition race_sched : list nat :=
  [0; 0; 0; 0; 0; 0; 0; 1; 1; 1; 1; 1; 0; 0; 0; 0; 0; 0; 0]%nat.

Definition race_run : list LockModel.event * (store Z * list (local Z)) :=
  interleave toy_encode toy_norm toy_inner race_progs race_reqs race_sched race_store.

End RaceExample.

(** * The chat endpoint around the context block *)
Module Chat.

Import Context.
Local Open Scope Z_scope.

Definition think_end_tag : pystr := of_ascii "</think>".

(** [parse_thinking_content(response_text)] *)
Definition parse_thinking_content (response_text : pystr) : pystr * pystr :=
  if contains think_end_tag response_text then
    let think_end_index := rfind think_end_tag response_text in
    if negb (think_end_index =? -1) then
      let cut := (Z.to_nat think_end_index + length think_end_tag)%nat in
      let thinking0 := strip (firstn cut response_text) in
      let final_content := strip (skipn cut response_text) in
      let thinking1 := if startswith (of_ascii "<think>") thinking0
                       then skipn 7 thinking0 else thinking0 in
      let thinking2 := if endswith (of_ascii "</think>") thinking1
                       then firstn (length thinking1 - 8) thinking1 else thinking1 in
      (strip thinking2, strip final_content)
    else ([], strip response_text)
  else ([], strip response_text).

(** [retrieve_context(query)]: the results of faiss-wrap's [/search]
    ([None] for a non-200 answer or a raised exception), filtered by score. *)
Definition retrieve_context (faiss : pystr -> option (list ctx_result)) (min_score : Q)
  (query : pystr) : list ctx_result :=
  match faiss query with
  | Some results => retrieve_filter min_score results
  | None => []
  end.

Definition is_user (m : message) : bool := pystr_eqb (role m) (of_ascii "user").

(** [next((m["content"] for m in reversed(base_messages) if m["role"] == "user"), None)] *)
Definition last_user_msg (msgs : list message) : option pystr :=
  option_map content (find is_user (rev msgs)).

(** The backwards loop looking for the last message with role user. *)
Definition last_user_idx (msgs : list message) : option nat :=
  find (fun i => match nth_error msgs i with Some m => is_user m | None => false end)
       (rev (seq 0 (length msgs))).

(** The think/no_think adjustment of the last user message.  The code
    assigns the new content into that message's dict; only the list sent
    to vLLM is read afterwards. *)
Definition apply_think_mode (think_mode : bool) (msgs : list message) : list message :=
  match last_user_idx msgs with
  | None => msgs
  | Some i =>
      match nth_error msgs i with
      | None => msgs
      | Some m =>
          if contains (of_ascii "/no_think") (content m) then msgs
          else list_set msgs i
                 (mk_msg (role m)
                    (if think_mode then rstrip (content m)
                     else rstrip (content m) ++ of_ascii " /no_think"))
      end
  end.

(** The messages [chat_endpoint] sends to vLLM, and the number of chunks
    included in the context. *)
Definition chat_messages (think_mode : bool) (faiss : pystr -> option (list ctx_result))
  (min_score : Q) (limit_chars : Z) (base_messages : list message) : list message * nat :=
  let retrieved :=
    match last_user_msg base_messages with
    | Some c => if truthy (PyStr c) then retrieve_context faiss min_score c else []
    | None => []
    end in
  let '(context_block, num_chunks_sent) := build_context_block retrieved limit_chars in
  (apply_think_mode think_mode (inject_context_into_messages base_messages context_block),
   num_chunks_sent).

End Chat.

(** * Predicates used in statements *)
Module Props.

Local Open Scope Z_scope.

(** The whitespace form [clean_text] produces: every whitespace character
    is a plain space and no two spaces are adjacent ([prev_space] tells
    whether the character before was a space). *)
Fixpoint ws_ok (prev_space : bool) (s : pystr) : bool :=
  match s with
  | [] => true
  | c :: t =>
      if is_space c then (c =? 32) && negb prev_space && ws_ok true t
      else ws_ok false t
  end.

(** Strictly increasing page numbers, on the [page] metadata of chunks. *)
Definition page_lt (a b : option pyval) : Prop :=
  match a, b with
  | Some (PyInt x), Some (PyInt y) => x < y
  | _, _ => False
  end.

End Props.

(** * Proofs *)

Lemma pystr_eqb_eq a b : pystr_eqb a b = true <-> a = b.
Proof.
  unfold pystr_eqb; destruct (list_eq_dec Z.eq_dec a b); split; congruence.
Qed.

Lemma pystr_eqb_refl a : pystr_eqb a a = true.
Proof. apply pystr_eqb_eq; reflexivity. Qed.

Lemma lstrip_all_space q : forallb is_space q = true -> lstrip q = [].
Proof.
  induction q as [|c q IH]; simpl; [reflexivity|].
  intros H; apply andb_true_iff in H as [Hc Hq]; rewrite Hc; auto.
Qed.

Lemma strip_all_space q : forallb is_space q = true -> strip q = [].
Proof. intros H; unfold strip; rewrite (lstrip_all_space q H); reflexivity. Qed.

Lemma filter_negb_id {A} (f : A -> bool) (l : list A) :
  existsb f l = false -> filter (fun a => negb (f a)) l = l.
Proof.
  induction l as [|a l IH]; simpl; [reflexivity|].
  intros H; apply orb_false_iff in H as [Ha Hl]; rewrite Ha; simpl; f_equal; auto.
Qed.

Lemma length_filter_split {A} (f : A -> bool) (l : list A) :
  (length (filter f l) + length (filter (fun a => negb (f a)) l))%nat = length l.
Proof.
  induction l as [|a l IH]; simpl; [reflexivity|].
  destruct (f a); simpl; lia.
Qed.

Lemma filter_false_nil {A} (f : A -> bool) (l : list A) :
  (forall a, In a l -> f a = false) -> filter f l = [].
Proof.
  induction l as [|a l IH]; simpl; intros H; [reflexivity|].
  rewrite (H a (or_introl eq_refl)); auto.
Qed.

Section StoreProofs.

Import FaissWrap.

Context {vec : Type} (encode : pystr -> vec) (normalize_L2 : vec -> vec)
  (inner : vec -> vec -> Q).

Definition emb_of (r : row) : vec := normalize_L2 (encode (row_text r)).

Definition to_row (it : item) : row :=
  mk_row (it_id it) (it_text it) (metadata_or_empty (it_metadata it)).

Lemma new_rows_eq (items : list item) :
  map (fun '(i, t, m) => mk_row i t m)
      (combine (combine (map it_id items) (map it_text items))
               (map (fun it => metadata_or_empty (it_metadata it)) items))
  = map to_row items.
Proof. induction items as [|it items IH]; simpl; [reflexivity|]; now rewrite IH. Qed.

(** The state written by a successful non-empty [upsert]: the rows whose
    id is not in the batch, in their order, followed by one row per item;
    the index is rebuilt from the kept rows when some id is replaced. *)
Lemma upsert_state (st : store vec) (items : list item) :
  ready st = true -> items <> [] ->
  let kept := filter (fun r => negb (isin (row_id r) (map it_id items))) (meta_df st) in
  let idx_kept :=
    if existsb (fun r => isin (row_id r) (map it_id items)) (meta_df st)
    then map emb_of kept else index st in
  let idx := idx_kept ++ map (fun it => normalize_L2 (encode (it_text it))) items in
  snd (upsert encode normalize_L2 items st) =
    mk_store true idx (kept ++ map to_row items) (Some (idx, kept ++ map to_row items)).
Proof.
  intros Hr Hne kept idx_kept idx.
  subst idx idx_kept kept.
  destruct items as [|it0 items0]; [congruence|].
  destruct st as [rd ix md dk]; cbn in Hr; subst rd.
  unfold upsert; cbn [negb ready meta_df index disk].
  remember (it0 :: items0) as items eqn:Heq.
  assert (Hemb : map normalize_L2 (_embed encode (map it_text items))
                 = map (fun it => normalize_L2 (encode (it_text it))) items).
  { unfold _embed; rewrite !map_map; reflexivity. }
  rewrite Heq at 1; cbn match.
  rewrite <- Heq.
  destruct (existsb (fun r => isin (row_id r) (map it_id items)) md) eqn:Hex.
  - destruct (filter (fun r => negb (isin (row_id r) (map it_id items))) md)
      as [|r0 rs] eqn:Hf;
      unfold _persist; cbn; rewrite new_rows_eq, Hemb; [reflexivity|].
    unfold _embed, emb_of; rewrite !map_map; reflexivity.
  - cbn in Hex |- *; rewrite (filter_negb_id _ _ Hex).
    unfold _persist; cbn; rewrite new_rows_eq, Hemb; reflexivity.
Qed.

Lemma upsert_meta (st : store vec) (items : list item) :
  ready st = true -> items <> [] ->
  meta_df (snd (upsert encode normalize_L2 items st)) =
    filter (fun r => negb (isin (row_id r) (map it_id items))) (meta_df st)
    ++ map to_row items.
Proof. intros Hr Hne; rewrite (upsert_state st items Hr Hne); reflexivity. Qed.

Lemma upsert_preserves_aligned (st : store vec) (items : list item) :
  aligned encode normalize_L2 st ->
  aligned encode normalize_L2 (snd (upsert encode normalize_L2 items st)).
Proof.
  intros Hal.
  destruct (ready st) eqn:Hr.
  2:{ unfold upsert; rewrite Hr; exact Hal. }
  destruct items as [|it items].
  { unfold upsert; rewrite Hr; exact Hal. }
  rewrite (upsert_state st (it :: items) Hr ltac:(discriminate)).
  unfold aligned in *; cbn [index meta_df].
  rewrite map_app; f_equal.
  - destruct (existsb _ (meta_df st)) eqn:Hex; [reflexivity|].
    rewrite (filter_negb_id _ _ Hex); exact Hal.
  - rewrite map_map; reflexivity.
Qed.

Lemma reset_preserves_aligned (st : store vec) :
  aligned encode normalize_L2 st ->
  aligned encode normalize_L2 (snd (reset st)).
Proof.
  intros Hal; unfold reset; destruct (ready st); [reflexivity | exact Hal].
Qed.

Lemma run_ops_aligned (ops : list op) (st : store vec) :
  aligned encode normalize_L2 st ->
  aligned encode normalize_L2 (run_ops encode normalize_L2 ops st).
Proof.
  unfold run_ops; revert st.
  induction ops as [|o ops IH]; intros st Hal; simpl; [exact Hal|].
  apply IH; destruct o; simpl.
  - now apply upsert_preserves_aligned.
  - now apply reset_preserves_aligned.
Qed.

(** C1: after any sequence of upsert and reset calls from an aligned store
    (the fresh store of [lifespan] is one), the index has as many vectors as
    the metadata frame has rows, and the vector at position [i] is the
    L2-normalized embedding of the text of row [i]. *)
Theorem alignment_invariant (st0 : store vec) (ops : list op)
  (H0 : aligned encode normalize_L2 st0) :
  let st := run_ops encode normalize_L2 ops st0 in
  length (index st) = length (meta_df st) /\
  (forall i r, nth_error (meta_df st) i = Some r ->
     nth_error (index st) i = Some (normalize_L2 (encode (row_text r)))).
Proof.
  intros st.
  pose proof (run_ops_aligned ops st0 H0) as Hal; fold st in Hal.
  unfold aligned in Hal; rewrite Hal.
  split; [apply length_map|].
  intros i r Hi; rewrite nth_error_map, Hi; reflexivity.
Qed.

Lemma collect_results_rows (meta : list row) hits r :
  In r (collect_results meta hits) ->
  exists rw, In rw meta /\ sr_id r = row_id rw /\ sr_text r = row_text rw.
Proof.
  induction hits as [|[sc ix] hits IH]; simpl; [tauto|].
  destruct ((ix <? 0)%Z || (Z.of_nat (length meta) <=? ix)%Z); [exact IH|].
  destruct (nth_error meta (Z.to_nat ix)) as [rw|] eqn:Hn; [|exact IH].
  intros [<- | Hin]; [|exact (IH Hin)].
  exists rw; split; [eapply nth_error_In; eauto | split; reflexivity].
Qed.

(** Every search result is read from a row of the metadata frame. *)
Lemma search_results_rows (st : store vec) q k res log :
  search encode normalize_L2 inner q k st = (Ok res, log) ->
  forall r, In r res ->
  exists rw, In rw (meta_df st) /\ sr_id r = row_id rw /\ sr_text r = row_text rw.
Proof.
  unfold search; destruct (negb (ready st)); [discriminate|].
  destruct (strip q) as [|c q']; [intros [= <- _]; contradiction|].
  cbn [map _embed].
  destruct (index st) as [|v vs]; [intros [= <- _]; contradiction|].
  intros [= <- _]; apply collect_results_rows.
Qed.

Lemma filter_isin_single x (rows : list row) :
  filter (fun r => negb (isin (row_id r) [x])) rows
  = filter (fun r => negb (pystr_eqb (row_id r) x)) rows.
Proof.
  apply filter_ext; intros r; unfold isin; simpl; rewrite orb_false_r; reflexivity.
Qed.

(** C2 (as amended): upserting one item with id [x] into a ready store drops
    every stored record with id [x] and appends the new one, so the total
    becomes [total - #x + 1] (unchanged when [x] was stored once); the only
    record with id [x] carries the new text and metadata, and no search on
    the new state returns another text for [x]. *)
Theorem upsert_same_id_replaces (st : store vec) (x t : pystr) (m : option pydict)
  (Hready : ready st = true) :
  let st' := snd (upsert encode normalize_L2 [mk_item x t m] st) in
  length (meta_df st') = (length (meta_df st) - count_id x (meta_df st) + 1)%nat /\
  (count_id x (meta_df st) = 1%nat -> length (meta_df st') = length (meta_df st)) /\
  filter (fun r => pystr_eqb (row_id r) x) (meta_df st') = [mk_row x t (metadata_or_empty m)] /\
  (forall q k res log, search encode normalize_L2 inner q k st' = (Ok res, log) ->
     forall r, In r res -> sr_id r = x -> sr_text r = t).
Proof.
  intros st'.
  assert (Hm : meta_df st' =
            filter (fun r => negb (pystr_eqb (row_id r) x)) (meta_df st)
            ++ [mk_row x t (metadata_or_empty m)]).
  { unfold st'; rewrite upsert_meta by (auto; discriminate).
    simpl map; rewrite filter_isin_single; reflexivity. }
  assert (Hlen : length (meta_df st') = (length (meta_df st) - count_id x (meta_df st) + 1)%nat).
  { rewrite Hm, length_app; simpl.
    pose proof (length_filter_split (fun r => pystr_eqb (row_id r) x) (meta_df st)).
    unfold count_id; lia. }
  assert (Hx : filter (fun r => pystr_eqb (row_id r) x) (meta_df st')
               = [mk_row x t (metadata_or_empty m)]).
  { rewrite Hm, filter_app; simpl; rewrite pystr_eqb_refl.
    rewrite filter_false_nil; [reflexivity|].
    intros a Ha; apply filter_In in Ha as [_ Ha].
    destruct (pystr_eqb (row_id a) x); [discriminate|reflexivity]. }
  split; [exact Hlen|].
  split.
  { intros H1; rewrite Hlen, H1.
    pose proof (length_filter_split (fun r => pystr_eqb (row_id r) x) (meta_df st)) as Hs.
    change (length (filter (fun r => pystr_eqb (row_id r) x) (meta_df st)))
      with (count_id x (meta_df st)) in Hs.
    rewrite H1 in Hs. clear -Hs. lia. }
  split; [exact Hx|].
  intros q k res log Hs r Hr Hid.
  destruct (search_results_rows st' q k res log Hs r Hr) as (rw & Hin & Hi & Ht).
  assert (Hf : In rw (filter (fun r => pystr_eqb (row_id r) x) (meta_df st'))).
  { apply filter_In; split; [exact Hin|]. apply pystr_eqb_eq; congruence. }
  rewrite Hx in Hf; destruct Hf as [<- | []]; exact Ht.
Qed.

(** C8: on a ready store, the [top_k] handed to the index is [top_k]
    clamped into [1, 50], and an empty or whitespace-only query returns an
    empty result list, with no call to the embedder and no error. *)
Theorem search_preconditions (st : store vec) (q : pystr) (k : Z)
  (Hready : ready st = true) :
  (forall k', In (EvIndexSearch k') (snd (search encode normalize_L2 inner q k st)) ->
     (1 <= k' <= 50)%Z /\ ((1 <= k <= 50)%Z -> k' = k) /\
     ((k < 1)%Z -> k' = 1%Z) /\ ((50 < k)%Z -> k' = 50%Z)) /\
  (forallb is_space q = true -> search encode normalize_L2 inner q k st = (Ok [], [])).
Proof.
  split.
  - intros k'. unfold search; rewrite Hready; cbn [negb].
    destruct (strip q) as [|c q']; [simpl; tauto|].
    cbn [map _embed].
    destruct (index st) as [|v vs]; [simpl; intros [H|[]]; discriminate|].
    simpl snd. intros [H|[H|[]]]; [discriminate|].
    injection H as <-. clear. lia.
  - intros Hsp; unfold search; rewrite Hready, (strip_all_space q Hsp); reflexivity.
Qed.

(** C9 (code as written): a call before the model and index are loaded
    fails with status 503, and a successful call with an empty item list
    answers [{"upserted": 0}] without the [total_items] count that the
    non-empty path returns. *)
Theorem upsert_empty_items_response (idx : list vec) (meta : list row) d
  (items : list item) :
  upsert encode normalize_L2 items (mk_store false idx meta d)
    = (HttpError 503, mk_store false idx meta d) /\
  upsert encode normalize_L2 [] (mk_store true idx meta d)
    = (Ok [(of_ascii "upserted", PyInt 0)], mk_store true idx meta d) /\
  dict_get [(of_ascii "upserted", PyInt 0)] (of_ascii "total_items") = None.
Proof. repeat split; reflexivity. Qed.

Lemma count_id_app x (a b : list row) :
  count_id x (a ++ b) = (count_id x a + count_id x b)%nat.
Proof. unfold count_id; rewrite filter_app, length_app; reflexivity. Qed.

(** C10 (as amended): every item of a non-empty batch is appended as its own
    record, duplicates within the batch included, after the stored records
    whose id occurs in the batch are dropped; so the total grows by the
    number of items when none of the batch's ids was stored. *)
Theorem upsert_batch_duplicates_appended (st : store vec) (items : list item)
  (Hready : ready st = true) (Hne : items <> []) :
  let ids := map it_id items in
  let st' := snd (upsert encode normalize_L2 items st) in
  meta_df st' = filter (fun r => negb (isin (row_id r) ids)) (meta_df st) ++ map to_row items /\
  (forall x, isin x ids = true -> count_id x (meta_df st') = count_id x (map to_row items)) /\
  length (meta_df st') =
    (length (meta_df st) - length (filter (fun r => isin (row_id r) ids) (meta_df st))
     + length items)%nat /\
  (existsb (fun r => isin (row_id r) ids) (meta_df st) = false ->
     length (meta_df st') = (length (meta_df st) + length items)%nat).
Proof.
  intros ids st'.
  assert (Hm := upsert_meta st items Hready Hne); fold ids st' in Hm.
  split; [exact Hm|].
  split.
  - intros x Hx; rewrite Hm, count_id_app.
    unfold count_id at 1; rewrite filter_false_nil; [reflexivity|].
    intros r Hr; apply filter_In in Hr as [_ Hr].
    destruct (pystr_eqb (row_id r) x) eqn:E; [|reflexivity].
    apply pystr_eqb_eq in E; rewrite E, Hx in Hr; discriminate.
  - pose proof (length_filter_split (fun r => isin (row_id r) ids) (meta_df st)).
    assert (Hl : length (meta_df st') =
              (length (filter (fun r => negb (isin (row_id r) ids)) (meta_df st))
               + length items)%nat).
    { rewrite Hm, length_app, length_map; reflexivity. }
    split; [lia|].
    intros Hex; rewrite Hl, (filter_negb_id _ _ Hex); reflexivity.
Qed.

End StoreProofs.

Import Toy.
Import FaissWrap.

Lemma alignment_invariant_witness :
  aligned toy_encode toy_norm (@startup_fresh Z) /\
  (let st := run_ops toy_encode toy_norm ops_demo startup_fresh in
   length (index st) = length (meta_df st) /\
   (forall i r, nth_error (meta_df st) i = Some r ->
      nth_error (index st) i = Some (toy_norm (toy_encode (row_text r))))).
Proof.
  split; [reflexivity|].
  apply (alignment_invariant toy_encode toy_norm startup_fresh ops_demo); reflexivity.
Defined.

(** Scenario B of the spec: upsert x:alpha then x:beta; one record remains
    and a top-1 search for "beta" returns the text "beta", whatever the
    embedder. *)
Example scenario_B {vec} (encode : pystr -> vec) normalize_L2 inner :
  let st := snd (upsert encode normalize_L2 [item_of "x" "beta"]
                   (snd (upsert encode normalize_L2 [item_of "x" "alpha"] startup_fresh))) in
  length (meta_df st) = 1%nat /\
  map sr_text (match fst (search encode normalize_L2 inner (of_ascii "beta") 1 st) with
               | Ok rs => rs | HttpError _ => [] end) = [of_ascii "beta"].
Proof. split; reflexivity. Qed.

Lemma upsert_same_id_replaces_witness :
  ready store_one_x = true /\
  (let st' := snd (upsert toy_encode toy_norm [mk_item x_id (of_ascii "beta") None] store_one_x) in
   length (meta_df st') = (length (meta_df store_one_x) - count_id x_id (meta_df store_one_x) + 1)%nat /\
   (count_id x_id (meta_df store_one_x) = 1%nat -> length (meta_df st') = length (meta_df store_one_x)) /\
   filter (fun r => pystr_eqb (row_id r) x_id) (meta_df st')
     = [mk_row x_id (of_ascii "beta") (metadata_or_empty None)] /\
   (forall q k res log, search toy_encode toy_norm toy_inner q k st' = (Ok res, log) ->
      forall r, In r res -> sr_id r = x_id -> sr_text r = of_ascii "beta")).
Proof.
  split; [reflexivity|].
  apply (upsert_same_id_replaces toy_encode toy_norm toy_inner store_one_x); reflexivity.
Defined.

(** C2 fails on a store holding x twice (reachable by one batch repeating
    x): upserting x again shrinks the total from 2 to 1. *)
Lemma upsert_same_id_count_changes :
  count_id x_id (meta_df store_dup_x) = 2%nat /\
  length (meta_df (snd (upsert toy_encode toy_norm [item_of "x" "beta"] store_dup_x)))
    <> length (meta_df store_dup_x).
Proof. vm_compute. split; [reflexivity | discriminate]. Qed.

Lemma search_preconditions_witness :
  ready store_one_x = true /\
  (forall k', In (EvIndexSearch k')
                (snd (search toy_encode toy_norm toy_inner (of_ascii "hi") 70 store_one_x)) ->
     (1 <= k' <= 50)%Z /\ ((1 <= 70 <= 50)%Z -> k' = 70%Z) /\
     ((70 < 1)%Z -> k' = 1%Z) /\ ((50 < 70)%Z -> k' = 50%Z)) /\
  (forallb is_space (of_ascii "  ") = true ->
     search toy_encode toy_norm toy_inner (of_ascii "  ") 70 store_one_x = (Ok [], [])).
Proof.
  split; [reflexivity|].
  split.
  - apply (search_preconditions toy_encode toy_norm toy_inner store_one_x (of_ascii "hi") 70).
    reflexivity.
  - apply (search_preconditions toy_encode toy_norm toy_inner store_one_x (of_ascii "  ") 70).
    reflexivity.
Defined.

Lemma upsert_batch_duplicates_appended_witness :
  ready (@startup_fresh Z) = true /\ [item_of "x" "a"; item_of "x" "b"] <> [] /\
  (let items := [item_of "x" "a"; item_of "x" "b"] in
   let ids := map it_id items in
   let st' := snd (upsert toy_encode toy_norm items startup_fresh) in
   meta_df st' = filter (fun r => negb (isin (row_id r) ids)) (meta_df (@startup_fresh Z))
                 ++ map to_row items /\
   (forall x, isin x ids = true -> count_id x (meta_df st') = count_id x (map to_row items)) /\
   length (meta_df st') =
     (length (meta_df (@startup_fresh Z))
      - length (filter (fun r => isin (row_id r) ids) (meta_df (@startup_fresh Z)))
      + length items)%nat /\
   (existsb (fun r => isin (row_id r) ids) (meta_df (@startup_fresh Z)) = false ->
      length (meta_df st') = (length (meta_df (@startup_fresh Z)) + length items)%nat)).
Proof.
  split; [reflexivity|]. split; [discriminate|].
  apply (upsert_batch_duplicates_appended toy_encode toy_norm startup_fresh); [reflexivity|discriminate].
Defined.

(** C10 fails when a batch id is already stored: after x:a is stored,
    upserting [x:b; x:c] grows the total by 1, not by the 2 items. *)
Lemma upsert_batch_growth_not_item_count :
  let st' := snd (upsert toy_encode toy_norm [item_of "x" "b"; item_of "x" "c"] store_one_x) in
  count_id x_id (meta_df st') = 2%nat /\
  length (meta_df st') = S (length (meta_df store_one_x)) /\
  length (meta_df st') <> (length (meta_df store_one_x) + 2)%nat.
Proof. vm_compute. split; [reflexivity | split; [reflexivity | discriminate]]. Qed.

(** ** Context assembly *)
Section ContextProofs.

Import Context.
Local Open Scope Z_scope.

Lemma lstrip_length s : (length (lstrip s) <= length s)%nat.
Proof. induction s as [|c s IH]; simpl; [lia|]; destruct (is_space c); simpl; lia. Qed.

Lemma strip_length s : (length (strip s) <= length s)%nat.
Proof.
  unfold strip, rstrip. rewrite length_rev.
  pose proof (lstrip_length (rev (lstrip s))); rewrite length_rev in H.
  pose proof (lstrip_length s); lia.
Qed.

Lemma join_length (p : pystr) (l : list pystr) :
  Z.of_nat (length (join [10] (p :: l))) = Z.of_nat (length p) + Z.of_nat (length l) + total_len l.
Proof.
  revert p; induction l as [|q l IH]; intros p; [simpl; lia|].
  change (join [10] (p :: q :: l)) with (p ++ [10] ++ join [10] (q :: l)).
  rewrite !length_app, !Nat2Z.inj_add, IH; simpl length; simpl total_len. lia.
Qed.

Lemma total_len_cons s l : total_len (s :: l) = Z.of_nat (length s) + total_len l.
Proof. reflexivity. Qed.

Lemma total_len_nil : total_len [] = 0.
Proof. reflexivity. Qed.

Lemma pack_spec (limit i run : Z) (rs : list ctx_result) :
  let sn := pack limit i run rs in
  (sn = [] \/ run + total_len sn <= limit) /\
  sn = render_from i (firstn (length sn) rs) /\
  (forall r, nth_error rs (length sn) = Some r ->
     limit < run + total_len sn + Z.of_nat (length (render_snippet (i + Z.of_nat (length sn)) r))).
Proof.
  revert i run; induction rs as [|r rs IH]; intros i run; cbv zeta; cbn [pack].
  - split; [left; reflexivity|]. split; [reflexivity|].
    intros r' H; cbn [length nth_error] in H; discriminate.
  - destruct (limit <? run + Z.of_nat (length (render_snippet i r))) eqn:Hov.
    + split; [left; reflexivity|]. split; [reflexivity|].
      intros r' Hr'; cbn [length nth_error] in Hr'; injection Hr' as <-.
      cbn [length Z.of_nat]; rewrite total_len_nil. apply Z.ltb_lt in Hov. rewrite !Z.add_0_r. exact Hov.
    + apply Z.ltb_ge in Hov.
      destruct (IH (i + 1) (run + Z.of_nat (length (render_snippet i r))))
        as (Hb & Hr & Hn).
      set (sn := pack limit (i + 1) (run + Z.of_nat (length (render_snippet i r))) rs) in *.
      cbn [length firstn render_from nth_error]; rewrite total_len_cons.
      split; [right; destruct Hb as [Hb|Hb]; [rewrite Hb, total_len_nil; lia | lia]|].
      split; [f_equal; exact Hr|].
      intros r' Hr'. specialize (Hn r' Hr').
      replace (i + Z.of_nat (S (length sn))) with (i + 1 + Z.of_nat (length sn)) by lia.
      lia.
Qed.

(** C5 (as amended): the snippets packed into the block are the rendered
    results in order up to the first one whose snippet would push the
    running count past the limit, which is excluded with all after it; the
    running count of the included snippets never exceeds the limit, and the
    block is at most that count plus the preamble and one separator per
    included snippet. *)
Theorem budget_packing_bound (results : list ctx_result) (limit : Z) :
  let sn := pack limit 1 0 results in
  let k := snd (build_context_block results limit) in
  k = length sn /\
  (sn = [] \/ total_len sn <= limit) /\
  sn = render_from 1 (firstn k results) /\
  (forall r, nth_error results k = Some r ->
     limit < total_len sn + Z.of_nat (length (render_snippet (1 + Z.of_nat k) r))) /\
  Z.of_nat (length (fst (build_context_block results limit)))
    <= Z.of_nat (length preamble) + Z.of_nat k + total_len sn.
Proof.
  intros sn k.
  assert (Hk : k = length sn).
  { subst k sn; destruct results; reflexivity. }
  destruct (pack_spec limit 1 0 results) as (Hb & Hr & Hn); fold sn in Hb, Hr, Hn.
  split; [exact Hk|].
  split; [destruct Hb as [Hb|Hb]; [left; exact Hb | right; lia]|].
  split; [rewrite Hk; exact Hr|].
  split; [intros r Hr'; rewrite Hk in Hr' |- *; specialize (Hn r Hr'); lia|].
  rewrite Hk. unfold build_context_block.
  destruct results as [|r0 rs].
  { subst sn; cbn [pack fst length Z.of_nat]; rewrite total_len_nil; lia. }
  fold sn. cbn [fst]. pose proof (strip_length (join [10] (preamble :: sn))) as Hs.
  pose proof (join_length preamble sn) as Hj. lia.
Qed.

Lemma filter_Qle r min_score results :
  In r (retrieve_filter min_score results) -> (min_score <= score_or_0 r)%Q.
Proof.
  unfold retrieve_filter; intros H; apply filter_In in H as [_ H].
  apply Qle_bool_iff; exact H.
Qed.

Lemma pack_firstn (limit i run : Z) (rs : list ctx_result) :
  pack limit i run (firstn (length (pack limit i run rs)) rs) = pack limit i run rs.
Proof.
  revert i run; induction rs as [|r rs IH]; intros i run; [reflexivity|].
  cbn [pack]. destruct (limit <? run + Z.of_nat (length (render_snippet i r))) eqn:Hov;
    [reflexivity|].
  cbn [length firstn pack]; rewrite Hov; f_equal; apply IH.
Qed.

(** C6: a result whose score is below the minimum is never among the
    results packed into the block, whatever the limit: the block is the
    preamble and the snippets of a prefix of the filtered results only. *)
Theorem threshold_filter_before_packing (min_score : Q) (limit : Z)
  (results : list ctx_result) :
  let filtered := retrieve_filter min_score results in
  let k := snd (chat_context min_score limit results) in
  (forall r, (score_or_0 r < min_score)%Q -> ~ In r (firstn k filtered)) /\
  fst (chat_context min_score limit results) =
    match filtered with
    | [] => []
    | _ => strip (join [10] (preamble :: pack limit 1 0 (firstn k filtered)))
    end.
Proof.
  intros filtered k.
  assert (Hk : k = length (pack limit 1 0 filtered)).
  { subst k; unfold chat_context; fold filtered; destruct filtered; reflexivity. }
  split.
  - intros r Hlt Hin.
    assert (Hin' : In r filtered).
    { rewrite <- (firstn_skipn k filtered); apply in_or_app; left; exact Hin. }
    clear Hin; rename Hin' into Hin.
    apply filter_Qle in Hin. apply (Qlt_not_le _ _ Hlt Hin).
  - unfold chat_context; fold filtered. rewrite Hk, pack_firstn.
    destruct filtered; reflexivity.
Qed.

(** C7: an empty block leaves the messages unchanged; a non-empty block is
    carried by a new system message placed right after a leading system
    message, or first otherwise, the other messages kept in order. *)
Theorem inject_context_splices (messages : list message) :
  inject_context_into_messages messages [] = messages /\
  forall c b,
    let sys := mk_msg (of_ascii "system") (context_instruction ++ c :: b) in
    (forall m0 rest, messages = m0 :: rest -> role m0 = of_ascii "system" ->
       inject_context_into_messages messages (c :: b) = m0 :: sys :: rest) /\
    ((forall m0 rest, messages = m0 :: rest -> role m0 <> of_ascii "system") ->
       inject_context_into_messages messages (c :: b) = sys :: messages).
Proof.
  split; [destruct messages; reflexivity|].
  intros c b sys; split.
  - intros m0 rest -> Hrole; simpl; rewrite Hrole, pystr_eqb_refl; reflexivity.
  - intros Hnot; destruct messages as [|m0 rest]; [reflexivity|].
    simpl. destruct (pystr_eqb (role m0) (of_ascii "system")) eqn:E; [|reflexivity].
    apply pystr_eqb_eq in E. exfalso; exact (Hnot m0 rest eq_refl E).
Qed.

End ContextProofs.

Lemma budget_packing_bound_exceeded :
  let r := Context.mk_ctx (Some (repeat 97%Z 3970)) None (Some 1%Q) in
  snd (Context.build_context_block [r] Context.MAX_CONTEXT_CHARS_default) = 1%nat /\
  (Context.MAX_CONTEXT_CHARS_default
     < Z.of_nat (length (fst (Context.build_context_block [r] Context.MAX_CONTEXT_CHARS_default))))%Z.
Proof. vm_compute. split; reflexivity. Qed.

(** ** Ingestion *)
Section IngestProofs.

Import Ingest.

Context (sha256_hex : pystr -> pystr).

Lemma build_chunks_hash doc_id source_uri idx pages c :
  In c (build_chunks sha256_hex doc_id source_uri idx pages) ->
  c_row_hash c = sha256_hex (c_text c).
Proof.
  revert idx; induction pages as [|raw rest IH]; intros idx; simpl; [tauto|].
  destruct (negb (valid_chunk (clean_text raw))); [apply IH|].
  intros [<- | H]; [reflexivity | exact (IH _ H)].
Qed.

Section Injective.

Hypothesis sha_inj : forall a b, sha256_hex a = sha256_hex b -> a = b.

Lemma dedupe_filter (t : pystr) (seen : list pystr) (cs : list chunk) :
  (forall c, In c cs -> c_row_hash c = sha256_hex (c_text c)) ->
  filter (has_text t) (dedupe seen cs) =
    if existsb (pystr_eqb (sha256_hex t)) seen then []
    else firstn 1 (filter (has_text t) cs).
Proof.
  revert seen; induction cs as [|c cs IH]; intros seen Hh.
  - simpl; destruct (existsb _ seen); reflexivity.
  - assert (Hc : c_row_hash c = sha256_hex (c_text c)) by (apply Hh; left; reflexivity).
    assert (Hcs : forall c', In c' cs -> c_row_hash c' = sha256_hex (c_text c'))
      by (intros; apply Hh; right; assumption).
    simpl dedupe; simpl filter at 2.
    unfold has_text at 2.
    destruct (pystr_eqb (c_text c) t) eqn:Et.
    + apply pystr_eqb_eq in Et. rewrite Hc, Et.
      destruct (existsb (pystr_eqb (sha256_hex t)) seen) eqn:Es.
      * rewrite (IH seen Hcs), Es; reflexivity.
      * simpl filter; unfold has_text at 1; rewrite Et, pystr_eqb_refl.
        rewrite (IH _ Hcs); simpl; rewrite pystr_eqb_refl; reflexivity.
    + destruct (existsb (pystr_eqb (c_row_hash c)) seen) eqn:Es.
      * apply (IH seen Hcs).
      * simpl filter; unfold has_text at 1; rewrite Et.
        rewrite (IH _ Hcs); simpl existsb.
        replace (pystr_eqb (sha256_hex t) (c_row_hash c)) with false; [reflexivity|].
        symmetry; destruct (pystr_eqb (sha256_hex t) (c_row_hash c)) eqn:E; [|reflexivity].
        apply pystr_eqb_eq in E; rewrite Hc in E; apply sha_inj in E.
        rewrite E, pystr_eqb_refl in Et; discriminate.
Qed.

Lemma build_chunks_first doc_id source_uri (t : pystr) (Hvalid : valid_chunk t = true)
  idx pages :
  map page_of (firstn 1 (filter (has_text t) (build_chunks sha256_hex doc_id source_uri idx pages))) =
  match first_page_from idx t pages with Some j => [Some (PyInt j)] | None => [] end.
Proof.
  revert idx; induction pages as [|raw rest IH]; intros idx; [reflexivity|].
  cbn [build_chunks first_page_from].
  destruct (valid_chunk (clean_text raw)) eqn:Hv; cbn [negb andb]; [|apply IH].
  cbn [filter]. unfold has_text at 1; cbn [c_text].
  destruct (pystr_eqb (clean_text raw) t) eqn:Et; [|apply IH].
  reflexivity.
Qed.

Lemma process_one_text doc (t : pystr) (Hvalid : valid_chunk t = true) pages :
  d_pages doc = Some pages ->
  map page_of (filter (has_text t) (process_one sha256_hex doc)) =
    match first_page_from 1 t pages with Some j => [Some (PyInt j)] | None => [] end.
Proof.
  intros Hp; unfold process_one, make_chunks; rewrite Hp.
  rewrite dedupe_filter by (intros c; apply build_chunks_hash).
  apply build_chunks_first; exact Hvalid.
Qed.

End Injective.

(** C4 (as amended): deduplication runs per document.  Within one document
    the valid pages (cleaned length at least 20) that clean to the same text
    give exactly one chunk, the one of the first such page; the merged list
    sent to [/upsert] (no [--max-chunks] cap) holds one chunk with that
    text per document that has such a page, whatever the completion order. *)
Theorem dedup_per_document
  (sha_inj : forall a b, sha256_hex a = sha256_hex b -> a = b)
  (t : pystr) (Hvalid : valid_chunk t = true) (completed : list document) :
  (forall doc pages, d_pages doc = Some pages ->
     map page_of (filter (has_text t) (process_one sha256_hex doc)) =
       match first_page_from 1 t pages with Some j => [Some (PyInt j)] | None => [] end) /\
  length (filter (has_text t) (chunks_to_upsert (all_chunks sha256_hex completed) 0)) =
    length (filter (fun doc => match d_pages doc with
                              | Some pages => if first_page_from 1 t pages then true else false
                              | None => false
                              end) completed).
Proof.
  split; [intros doc pages; apply process_one_text; assumption|].
  unfold chunks_to_upsert; cbn [Z.ltb Z.compare].
  unfold all_chunks; induction completed as [|doc rest IH]; [reflexivity|].
  cbn [flat_map]; rewrite filter_app, length_app, IH.
  cbn [filter].
  destruct (d_pages doc) as [pages|] eqn:Hp.
  - pose proof (process_one_text sha_inj doc t Hvalid pages Hp) as H.
    apply (f_equal (@length _)) in H; rewrite length_map in H; rewrite H.
    destruct (first_page_from 1 t pages); reflexivity.
  - unfold process_one at 1; rewrite Hp; reflexivity.
Qed.

End IngestProofs.

(** ** Locking *)
Section LockProofs.

Import LockModel.

Lemma nth_error_set_nth {A} (l : list A) n x m :
  nth_error (set_nth n x l) m =
    if Nat.eqb n m then match nth_error l m with Some _ => Some x | None => None end
    else nth_error l m.
Proof.
  revert n m; induction l as [|h l IH]; intros n m.
  - destruct (Nat.eqb n m), m; reflexivity.
  - destruct n as [|n], m as [|m]; simpl; try reflexivity.
    apply IH.
Qed.

Lemma count_if_app f l i :
  count_if f (l ++ [i]) = (count_if f l + if f i then 1 else 0)%nat.
Proof.
  unfold count_if; rewrite filter_app, length_app; simpl.
  destruct (f i); reflexivity.
Qed.

Lemma firstn_S_nth {A} (l : list A) n i :
  nth_error l n = Some i -> firstn (S n) l = firstn n l ++ [i].
Proof.
  revert n; induction l as [|h l IH]; intros n H; [destruct n; discriminate|].
  destruct n as [|n]; simpl in *; [injection H as ->; reflexivity|].
  rewrite (IH n H); reflexivity.
Qed.

Lemma bracketed_spec p n :
  bracketed p = true ->
  (count_if is_release (firstn n p) <= count_if is_acquire (firstn n p) <=
   S (count_if is_release (firstn n p)))%nat /\
  (forall i, nth_error p n = Some i -> mutation i || is_release i = true ->
     inside p n = true) /\
  (forall i, nth_error p n = Some i -> unlocked i = true ->
     count_if is_acquire (firstn n p) = 0%nat).
Proof.
  intros Hb.
  destruct (Nat.le_gt_cases n (length p)) as [Hle|Hgt].
  - unfold bracketed in Hb. rewrite forallb_forall in Hb.
    specialize (Hb n ltac:(apply in_seq; lia)).
    apply andb_true_iff in Hb as [Hb Hm]; apply andb_true_iff in Hb as [H1 H2].
    apply Nat.leb_le in H1, H2. split; [lia|]. split.
    + intros i Hi Hmi; rewrite Hi, Hmi in Hm.
      apply andb_true_iff in Hm as [Hm _]; exact Hm.
    + intros i Hi Hu; rewrite Hi, Hu in Hm.
      apply andb_true_iff in Hm as [_ Hm]; apply Nat.eqb_eq; exact Hm.
  - rewrite firstn_all2 by lia.
    unfold bracketed in Hb. rewrite forallb_forall in Hb.
    specialize (Hb (length p) ltac:(apply in_seq; lia)).
    rewrite firstn_all in Hb.
    apply andb_true_iff in Hb as [Hb _]; apply andb_true_iff in Hb as [H1 H2].
    apply Nat.leb_le in H1, H2. split; [lia|].
    split; intros i Hi; rewrite (proj2 (nth_error_None p n) ltac:(lia)) in Hi; discriminate.
Qed.

Lemma programs_bracketed p : In p programs -> bracketed p = true.
Proof. intros H; repeat (destruct H as [<-|H]; [reflexivity|]); destruct H. Qed.

(** The lock owner is the one thread inside a critical section. *)
Definition Inv (c : config) : Prop :=
  (forall t th, nth_error (threads c) t = Some th ->
     In (prog th) programs /\ (inside (prog th) (pc th) = true -> lock c = Some t)) /\
  (forall t, lock c = Some t ->
     exists th, nth_error (threads c) t = Some th /\ inside (prog th) (pc th) = true).

Lemma inside_step_other p n i :
  nth_error p n = Some i -> is_acquire i = false -> is_release i = false ->
  inside p (S n) = inside p n.
Proof.
  intros Hi Ha Hr; unfold inside; rewrite (firstn_S_nth _ _ _ Hi), !count_if_app, Ha, Hr.
  rewrite !Nat.add_0_r; reflexivity.
Qed.

Lemma inv_update c t th th' L :
  Inv c -> nth_error (threads c) t = Some th -> prog th' = prog th ->
  (inside (prog th') (pc th') = true -> L = Some t) ->
  (forall t' th'', t' <> t -> nth_error (threads c) t' = Some th'' ->
     inside (prog th'') (pc th'') = true -> L = Some t') ->
  (L = Some t -> inside (prog th') (pc th') = true) ->
  (forall t', t' <> t -> L = Some t' -> lock c = Some t') ->
  Inv (mk_config (set_nth t th' (threads c)) L).
Proof.
  intros [Hinv Hown] Ht Hp Hself Hother Hself' Hother'. split.
  - intros t' th'' H; simpl in H |- *.
    rewrite nth_error_set_nth in H.
    destruct (Nat.eqb t t') eqn:E.
    + apply Nat.eqb_eq in E; subst t'. rewrite Ht in H; injection H as <-.
      split; [rewrite Hp; exact (proj1 (Hinv t th Ht)) | exact Hself].
    + apply Nat.eqb_neq in E.
      split; [exact (proj1 (Hinv t' th'' H))|].
      apply (Hother t' th''); auto.
  - intros t' HL; simpl in HL |- *. rewrite nth_error_set_nth.
    destruct (Nat.eqb t t') eqn:E.
    + apply Nat.eqb_eq in E; subst t'. rewrite Ht.
      exists th'; split; [reflexivity | exact (Hself' HL)].
    + apply Nat.eqb_neq in E.
      exact (Hown t' (Hother' t' (fun H => E (eq_sym H)) HL)).
Qed.

Lemma step_inv c t c' ev :
  Inv c -> step c t = Some (c', ev) ->
  Inv c' /\ ev_thread ev = t /\ ev_lock ev = lock c /\
  (mutation (ev_instr ev) = true -> lock c = Some t) /\
  (unlocked (ev_instr ev) = true -> lock c <> Some t).
Proof.
  intros Hinv Hs. unfold step in Hs.
  destruct (nth_error (threads c) t) as [th|] eqn:Ht; [|discriminate].
  destruct (nth_error (prog th) (pc th)) as [i|] eqn:Hi; [|discriminate].
  destruct (proj1 Hinv t th Ht) as [Hin Hown].
  destruct (bracketed_spec (prog th) (pc th) (programs_bracketed _ Hin))
    as (Hbal & Hmut & Hunl).
  assert (Hm : mutation i = true -> lock c = Some t).
  { intros Hmi; apply Hown, (Hmut i Hi); rewrite Hmi; reflexivity. }
  assert (Hu : unlocked i = true -> lock c <> Some t).
  { intros Hui Hl. destruct (proj2 Hinv t Hl) as [th0 [Ht0 Hin0]].
    rewrite Ht in Ht0; injection Ht0 as <-.
    pose proof (Hunl i Hi Hui) as H0. unfold inside in Hin0.
    rewrite H0 in Hin0. apply Nat.ltb_lt in Hin0; lia. }
  assert (Hrel : is_release i = true -> inside (prog th) (pc th) = true).
  { intros Hr; apply (Hmut i Hi); rewrite Hr, orb_true_r; reflexivity. }
  destruct i; cbn [mutation unlocked] in Hm, Hu;
  try (destruct (lock c) as [o|] eqn:Hl; [discriminate|]);
  try (destruct (owner_is (lock c) t) eqn:Ho; [|discriminate]);
  injection Hs as <- <-;
  (split; [|split; [reflexivity|split; [reflexivity|split; [exact Hm | exact Hu]]]]);
  try (apply (inv_update c t th (mk_thread (prog th) (S (pc th))) (lock c) Hinv Ht eq_refl);
       [ cbn [prog pc]; rewrite (inside_step_other _ _ _ Hi) by reflexivity; exact Hown
       | intros t' th'' _ H' Hin'; exact (proj2 (proj1 Hinv t' th'' H') Hin')
       | intros Hl; cbn [prog pc]; rewrite (inside_step_other _ _ _ Hi) by reflexivity;
         destruct (proj2 Hinv t Hl) as [th0 [Ht0 Hin0]];
         rewrite Ht in Ht0; injection Ht0 as <-; exact Hin0
       | intros t' _ Hl; exact Hl ]).
  - (* Acquire *)
    apply (inv_update c t th (mk_thread (prog th) (S (pc th))) (Some t) Hinv Ht eq_refl);
      [reflexivity| | |intros t' Hne Heq; injection Heq as ->; contradiction].
    + intros t' th'' _ H' Hin'. rewrite (proj2 (proj1 Hinv t' th'' H') Hin') in Hl; discriminate.
    + intros _; cbn [prog pc]. unfold inside; rewrite (firstn_S_nth _ _ _ Hi), !count_if_app.
      cbn [is_release is_acquire].
      assert (Hout : inside (prog th) (pc th) = false).
      { destruct (inside (prog th) (pc th)) eqn:E; [|reflexivity].
        discriminate (Hown eq_refl). }
      unfold inside in Hout. apply Nat.ltb_ge in Hout. apply Nat.ltb_lt. lia.
  - (* Release *)
    assert (Hlc : lock c = Some t).
    { destruct (lock c) as [o|]; [|discriminate]. apply Nat.eqb_eq in Ho; subst; reflexivity. }
    apply (inv_update c t th (mk_thread (prog th) (S (pc th))) None Hinv Ht eq_refl);
      [| | discriminate | intros ? ? ?; discriminate].
    + cbn [prog pc]. unfold inside; rewrite (firstn_S_nth _ _ _ Hi), !count_if_app.
      cbn [is_release is_acquire]. intros H; apply Nat.ltb_lt in H; lia.
    + intros t' th'' Hne H' Hin'. rewrite (proj2 (proj1 Hinv t' th'' H') Hin') in Hlc.
      injection Hlc as ->; contradiction.
Qed.

Lemma run_inv sched c :
  Inv c ->
  Inv (fst (run sched c)) /\
  (forall ev, In ev (snd (run sched c)) -> mutation (ev_instr ev) = true ->
     ev_lock ev = Some (ev_thread ev)) /\
  (forall ev, In ev (snd (run sched c)) -> unlocked (ev_instr ev) = true ->
     ev_lock ev <> Some (ev_thread ev)).
Proof.
  revert c; induction sched as [|t sched IH]; intros c Hinv;
    [split; [exact Hinv | split; intros ? []]|].
  simpl. destruct (step c t) as [[c' ev]|] eqn:Hs; [|apply IH; exact Hinv].
  destruct (step_inv c t c' ev Hinv Hs) as (Hinv' & Ht & Hl & Hm & Hu).
  destruct (IH c' Hinv') as (HI & Hev & Hevu).
  destruct (run sched c') as [c'' evs] eqn:Hr; simpl in *.
  split; [exact HI|]. split.
  - intros ev' [<- | Hin] Hmut; [rewrite Hl, Ht; apply Hm, Hmut | apply Hev; assumption].
  - intros ev' [<- | Hin] Hun; [rewrite Hl, Ht; apply Hu, Hun | apply Hevu; assumption].
Qed.

Lemma initial_inv progs :
  Forall (fun p => In p programs) progs -> Inv (initial progs).
Proof.
  intros Hall. split; [|discriminate].
  intros t th H; simpl in H.
  rewrite nth_error_map in H.
  destruct (nth_error progs t) as [p|] eqn:Hp; [|discriminate].
  injection H as <-; simpl. split.
  - rewrite Forall_forall in Hall; apply Hall; eapply nth_error_In; eauto.
  - discriminate.
Qed.


End LockProofs.

Section LockWitnesses.

Import LockModel FaissWrap Toy Race RaceExample.



End LockWitnesses.

Lemma dedup_per_document_witness :
  (forall a b : pystr, (fun s => s) a = (fun s => s) b -> a = b) /\
  Ingest.valid_chunk IngestExamples.statement_page = true /\
  ((forall doc pages, Ingest.d_pages doc = Some pages ->
      map Ingest.page_of (filter (Ingest.has_text IngestExamples.statement_page)
                             (Ingest.process_one (fun s => s) doc)) =
      match Ingest.first_page_from 1 IngestExamples.statement_page pages with
      | Some j => [Some (PyInt j)] | None => [] end) /\
   length (filter (Ingest.has_text IngestExamples.statement_page)
             (Ingest.chunks_to_upsert (Ingest.all_chunks (fun s => s) IngestExamples.two_docs) 0)) =
   length (filter (fun doc => match Ingest.d_pages doc with
                              | Some pages =>
                                  if Ingest.first_page_from 1 IngestExamples.statement_page pages
                                  then true else false
                              | None => false
                              end) IngestExamples.two_docs)).
Proof.
  assert (Hinj : forall a b : pystr, (fun s => s) a = (fun s => s) b -> a = b) by auto.
  split; [exact Hinj|]. split; [reflexivity|].
  apply (dedup_per_document (fun s => s) Hinj); reflexivity.
Defined.

(** C4 fails as stated: the same cleaned page in two documents yields two
    upserted chunks, in either completion order. *)
Lemma dedup_across_documents_fails :
  length (filter (Ingest.has_text IngestExamples.statement_page)
            (Ingest.chunks_to_upsert (Ingest.all_chunks (fun s => s) IngestExamples.two_docs) 0))
    = 2%nat /\
  length (filter (Ingest.has_text IngestExamples.statement_page)
            (Ingest.chunks_to_upsert (Ingest.all_chunks (fun s => s) (rev IngestExamples.two_docs)) 0))
    = 2%nat.
Proof. vm_compute. split; reflexivity. Qed.

(** ** Python string helpers *)
Section StringFacts.

Local Open Scope Z_scope.

Lemma lstrip_idem s : lstrip (lstrip s) = lstrip s.
Proof.
  induction s as [|c s IH]; simpl; [reflexivity|].
  destruct (is_space c) eqn:E; [exact IH|]. simpl; rewrite E; reflexivity.
Qed.

Lemma lstrip_app x y :
  lstrip (x ++ y) = match lstrip x with [] => lstrip y | z => z ++ y end.
Proof.
  induction x as [|c x IH]; simpl; [reflexivity|].
  destruct (is_space c); [exact IH | reflexivity].
Qed.

Lemma lstrip_nonspace c t : is_space c = false -> lstrip (c :: t) = c :: t.
Proof. intros E; simpl; rewrite E; reflexivity. Qed.

Lemma lstrip_shape s : lstrip s = [] \/ exists c t, lstrip s = c :: t /\ is_space c = false.
Proof.
  induction s as [|c s IH]; simpl; [left; reflexivity|].
  destruct (is_space c) eqn:E; [exact IH|]. right; eauto.
Qed.

Lemma rstrip_idem s : rstrip (rstrip s) = rstrip s.
Proof. unfold rstrip; rewrite rev_involutive, lstrip_idem; reflexivity. Qed.

Lemma rstrip_snoc_nonspace x c : is_space c = false -> rstrip (x ++ [c]) = x ++ [c].
Proof.
  intros E; unfold rstrip; rewrite rev_app_distr.
  change (rev [c] ++ rev x) with (c :: rev x).
  rewrite (lstrip_nonspace c (rev x) E).
  change (rev (c :: rev x)) with (rev (rev x) ++ [c]).
  rewrite rev_involutive; reflexivity.
Qed.

Lemma rstrip_nonspace_head c t : is_space c = false -> exists u, rstrip (c :: t) = c :: u.
Proof.
  intros E; unfold rstrip; simpl rev; rewrite lstrip_app.
  destruct (lstrip (rev t)) as [|d u] eqn:Hl.
  - simpl; rewrite E; exists []; reflexivity.
  - exists (rev (d :: u)). simpl. rewrite rev_app_distr; reflexivity.
Qed.

Lemma strip_idem s : strip (strip s) = strip s.
Proof.
  unfold strip.
  assert (H : lstrip (rstrip (lstrip s)) = rstrip (lstrip s)).
  { destruct (lstrip_shape s) as [H | (c & t & H & E)]; rewrite H; [reflexivity|].
    destruct (rstrip_nonspace_head c t E) as [u Hu]; rewrite Hu.
    apply lstrip_nonspace; exact E. }
  rewrite H; apply rstrip_idem.
Qed.

Lemma lstrip_suffix s : exists w, s = w ++ lstrip s.
Proof.
  induction s as [|c s IH]; simpl; [exists []; reflexivity|].
  destruct (is_space c); [destruct IH as [w Hw]; exists (c :: w); simpl; f_equal; exact Hw|].
  exists []; reflexivity.
Qed.

Lemma rstrip_prefix s : exists y, s = rstrip s ++ y.
Proof.
  destruct (lstrip_suffix (rev s)) as [w Hw].
  exists (rev w). unfold rstrip. rewrite <- rev_app_distr, <- Hw, rev_involutive; reflexivity.
Qed.

Lemma strip_infix s : exists w y, s = w ++ strip s ++ y.
Proof.
  destruct (lstrip_suffix s) as [w Hw]. destruct (rstrip_prefix (lstrip s)) as [y Hy].
  exists w, y. unfold strip. rewrite <- Hy; exact Hw.
Qed.

Lemma startswith_true sub s : startswith sub s = true <-> exists y, s = sub ++ y.
Proof.
  unfold startswith; rewrite pystr_eqb_eq; split.
  - intros H; exists (skipn (length sub) s); rewrite <- H at 1; symmetry; apply firstn_skipn.
  - intros [y ->]. rewrite firstn_app, Nat.sub_diag, firstn_all; simpl; apply app_nil_r.
Qed.

Lemma contains_spec sub s :
  contains sub s = true <-> exists j, startswith sub (skipn j s) = true.
Proof.
  split.
  - induction s as [|c s IH]; simpl; intros H.
    + rewrite orb_false_r in H; exists 0%nat; exact H.
    + apply orb_true_iff in H as [H|H]; [exists 0%nat; exact H|].
      destruct (IH H) as [j Hj]; exists (S j); exact Hj.
  - intros [j Hj]; revert s Hj; induction j as [|j IH]; intros s Hj.
    + destruct s; simpl in *; rewrite Hj; reflexivity.
    + destruct s as [|c s]; simpl in *.
      * rewrite Hj; reflexivity.
      * rewrite (IH s Hj); apply orb_true_r.
Qed.

Lemma contains_infix sub w s y : contains sub s = true -> contains sub (w ++ s ++ y) = true.
Proof.
  intros H; apply contains_spec in H as [j Hj]; apply contains_spec.
  apply startswith_true in Hj as [z Hz].
  destruct (Nat.le_gt_cases j (length s)) as [Hle|Hgt].
  - exists (length w + j)%nat.
    rewrite skipn_app, skipn_all2 by lia; simpl.
    replace (length w + j - length w)%nat with j by lia.
    rewrite skipn_app, Hz. apply startswith_true; exists (z ++ skipn (j - length s) y).
    rewrite <- app_assoc; reflexivity.
  - rewrite skipn_all2 in Hz by lia.
    destruct sub; [|discriminate].
    exists 0%nat; apply startswith_true; exists (w ++ s ++ y); reflexivity.
Qed.

Lemma contains_strip sub s : contains sub (strip s) = true -> contains sub s = true.
Proof.
  intros H; destruct (strip_infix s) as (w & y & Hs).
  rewrite Hs; apply contains_infix; exact H.
Qed.

Lemma startswith_nil_false sub : sub <> [] -> startswith sub [] = false.
Proof.
  intros Hne; destruct (startswith sub []) eqn:E; [|reflexivity].
  apply startswith_true in E as [y Hy]. destruct sub; [congruence | discriminate].
Qed.

(** [rfind] returns the last position where [sub] starts, or -1 when there
    is none. *)
Lemma rfind_from_spec sub s i : sub <> [] -> 0 <= i ->
  (rfind_from sub s i = -1 /\ forall j, startswith sub (skipn j s) = false) \/
  (exists j, rfind_from sub s i = i + Z.of_nat j /\ startswith sub (skipn j s) = true /\
     forall j', (j < j')%nat -> startswith sub (skipn j' s) = false).
Proof.
  intros Hne; revert i; induction s as [|c s IH]; intros i Hi.
  - left; simpl; rewrite startswith_nil_false by exact Hne.
    split; [reflexivity|]. intros j; rewrite skipn_nil; apply startswith_nil_false; exact Hne.
  - simpl rfind_from.
    destruct (IH (i + 1) ltac:(lia)) as [[Hr Hn] | (j & Hr & Hm & Ha)].
    + rewrite Hr, Z.eqb_refl.
      destruct (startswith sub (c :: s)) eqn:Hs.
      * right; exists 0%nat; split; [lia|]. split; [exact Hs|].
        intros j' Hj'; destruct j' as [|j']; [lia|]; apply Hn.
      * left; split; [reflexivity|]. intros [|j]; [exact Hs | apply Hn].
    + rewrite Hr. replace (i + 1 + Z.of_nat j =? -1) with false by lia.
      right; exists (S j); split; [lia|]. split; [exact Hm|].
      intros [|j'] Hj'; [lia|]. apply Ha; lia.
Qed.

End StringFacts.

(** ** Thinking/answer split of the chat endpoint *)
Section ThinkingProofs.

Import Chat.
Local Open Scope Z_scope.

Lemma think_end_tag_eq : think_end_tag = [60; 47; 116; 104; 105; 110; 107; 62].
Proof. reflexivity. Qed.

Lemma think_end_tag_ne : think_end_tag <> [].
Proof. rewrite think_end_tag_eq; discriminate. Qed.

(** The answer part returned by [parse_thinking_content] never contains
    the closing tag [</think>]; a reply without that tag is returned whole,
    stripped, as the answer, with an empty thinking part. *)
Theorem parse_thinking_answer_tag_free (response_text : pystr) :
  contains think_end_tag (snd (parse_thinking_content response_text)) = false /\
  (contains think_end_tag response_text = false ->
   parse_thinking_content response_text = ([], strip response_text)).
Proof.
  split; [|intros H; unfold parse_thinking_content; rewrite H; reflexivity].
  unfold parse_thinking_content.
  destruct (contains think_end_tag response_text) eqn:Hc.
  - unfold rfind.
    destruct (rfind_from_spec think_end_tag response_text 0 think_end_tag_ne ltac:(lia))
      as [[Hr Hn] | (j & Hr & Hm & Ha)].
    + apply contains_spec in Hc as [j Hj]; rewrite Hn in Hj; discriminate.
    + rewrite Hr. replace (0 + Z.of_nat j =? -1) with false by lia.
      cbn [negb snd]. replace (Z.to_nat (0 + Z.of_nat j)) with j by lia.
      destruct (contains think_end_tag (strip (strip (skipn (j + length think_end_tag) response_text))))
        eqn:Hs; [|reflexivity].
      apply contains_strip, contains_strip, contains_spec in Hs as [j' Hj'].
      rewrite skipn_skipn in Hj'. rewrite Ha in Hj'; [discriminate|].
      rewrite think_end_tag_eq; simpl length; lia.
  - cbn [snd]. destruct (contains think_end_tag (strip response_text)) eqn:Hs; [|reflexivity].
    apply contains_strip in Hs; congruence.
Qed.

Lemma tag_inner_offsets d b : (1 <= d <= 7)%nat ->
  startswith think_end_tag (skipn d think_end_tag ++ b) = false.
Proof.
  intros Hd. rewrite think_end_tag_eq.
  do 8 (destruct d as [|d]; [try lia; reflexivity|]). lia.
Qed.

Lemma firstn_app_exact {A} (l1 l2 : list A) n : n = length l1 -> firstn n (l1 ++ l2) = l1.
Proof. intros ->; induction l1 as [|x l1 IH]; simpl; [reflexivity | f_equal; exact IH]. Qed.

Lemma skipn_app_exact {A} (l1 l2 : list A) n : n = length l1 -> skipn n (l1 ++ l2) = l2.
Proof. intros ->; induction l1 as [|x l1 IH]; simpl; [reflexivity | exact IH]. Qed.

(** A reply of the form [<think>a</think>b], where [b] does not contain
    [</think>], splits into the stripped [a] as thinking part and the
    stripped [b] as answer. *)
Theorem parse_thinking_roundtrip (a b : pystr)
  (Hb : contains think_end_tag b = false) :
  parse_thinking_content (of_ascii "<think>" ++ a ++ think_end_tag ++ b) = (strip a, strip b).
Proof.
  assert (Hop : of_ascii "<think>" = [60; 116; 104; 105; 110; 107; 62]) by reflexivity.
  set (t := of_ascii "<think>" ++ a ++ think_end_tag ++ b).
  set (X := of_ascii "<think>" ++ a ++ think_end_tag).
  assert (Ht : t = X ++ b) by (unfold t, X; rewrite !app_assoc; reflexivity).
  set (j0 := (7 + length a)%nat).
  assert (Hsk : forall d, skipn (j0 + d) t = skipn d (think_end_tag ++ b)).
  { intros d. unfold t, j0. rewrite Hop, <- Nat.add_assoc. simpl skipn.
    rewrite skipn_app, skipn_all2 by lia. simpl.
    replace (length a + d - length a)%nat with d by lia. reflexivity. }
  assert (Hm0 : startswith think_end_tag (skipn j0 t) = true).
  { rewrite <- (Nat.add_0_r j0), Hsk. apply startswith_true; exists b; reflexivity. }
  assert (Hc : contains think_end_tag t = true) by (apply contains_spec; exists j0; exact Hm0).
  destruct (rfind_from_spec think_end_tag t 0 think_end_tag_ne ltac:(lia))
    as [[_ Hn] | (j & Hr & Hm & Ha)].
  { rewrite Hn in Hm0; discriminate. }
  assert (Hj : j = j0).
  { destruct (Nat.lt_total j j0) as [Hlt | [Heq | Hgt]].
    - rewrite (Ha j0 Hlt) in Hm0; discriminate.
    - exact Heq.
    - exfalso. replace j with (j0 + (j - j0))%nat in Hm by lia. rewrite Hsk in Hm.
      destruct (Nat.le_gt_cases (j - j0) 7) as [Hle|Hgt8].
      + rewrite skipn_app in Hm.
        replace (j - j0 - length think_end_tag)%nat with 0%nat in Hm
          by (rewrite think_end_tag_eq; simpl length; lia).
        rewrite tag_inner_offsets in Hm by lia. discriminate.
      + rewrite skipn_app, skipn_all2 in Hm by (rewrite think_end_tag_eq; simpl length; lia).
        simpl in Hm.
        assert (Hcb : contains think_end_tag b = true) by (apply contains_spec; eexists; exact Hm).
        congruence. }
  subst j.
  assert (Hcut : (Z.to_nat (0 + Z.of_nat j0) + length think_end_tag)%nat = length X).
  { unfold X, j0; rewrite Hop, !length_app; simpl length; lia. }
  assert (HX : strip X = X).
  { assert (HX1 : lstrip X = X)
      by (unfold X; rewrite Hop; apply lstrip_nonspace; reflexivity).
    unfold strip; rewrite HX1.
    assert (HX2 : X = (of_ascii "<think>" ++ a ++ [60; 47; 116; 104; 105; 110; 107]) ++ [62])
      by (unfold X; rewrite think_end_tag_eq, <- !app_assoc; reflexivity).
    rewrite HX2; apply rstrip_snoc_nonspace; reflexivity. }
  assert (Hst : startswith (of_ascii "<think>") X = true)
    by (apply startswith_true; eexists; reflexivity).
  assert (Hs7 : skipn 7 X = a ++ think_end_tag)
    by (apply skipn_app_exact; rewrite Hop; reflexivity).
  assert (Hend : endswith (of_ascii "</think>") (a ++ think_end_tag) = true).
  { change (of_ascii "</think>") with think_end_tag. unfold endswith.
    rewrite length_app, think_end_tag_eq. simpl length.
    replace (length a + 8 - 8)%nat with (length a) by lia.
    rewrite skipn_app_exact by reflexivity. rewrite pystr_eqb_refl, andb_true_r.
    apply Nat.leb_le; lia. }
  assert (Hf8 : firstn (length (a ++ think_end_tag) - 8) (a ++ think_end_tag) = a).
  { apply firstn_app_exact. rewrite length_app, think_end_tag_eq; simpl length; lia. }
  unfold parse_thinking_content. rewrite Hc. unfold rfind. rewrite Hr.
  replace (0 + Z.of_nat j0 =? -1) with false by lia. cbn [negb].
  rewrite Hcut, Ht, firstn_app_exact, skipn_app_exact by reflexivity.
  rewrite HX, Hst, Hs7, Hend, Hf8, strip_idem. reflexivity.
Qed.

End ThinkingProofs.

(** ** Ingestion helpers *)
Section IngestHelperProofs.

Import Ingest Props.
Local Open Scope Z_scope.

Lemma split1_spec sep s :
  (~ In sep s /\ split1 sep s = [s]) \/
  (exists p t, s = p ++ sep :: t /\ ~ In sep p /\ split1 sep s = [p; t]).
Proof.
  induction s as [|c s IH]; simpl.
  - left; tauto.
  - destruct (Z.eqb_spec c sep) as [->|Hne].
    + right; exists [], s; simpl; tauto.
    + destruct IH as [[Hn ->] | (p & t & -> & Hp & ->)].
      * left; split; [intros [H|H]; [congruence | tauto] | reflexivity].
      * right; exists (c :: p), t; simpl; split; [reflexivity|].
        split; [intros [H|H]; [congruence | tauto] | reflexivity].
Qed.

Lemma lstrip_chars_shape chars s :
  lstrip_chars chars s = [] \/
  exists c t, lstrip_chars chars s = c :: t /\ existsb (Z.eqb c) chars = false.
Proof.
  induction s as [|c s IH]; simpl; [left; reflexivity|].
  destruct (existsb (Z.eqb c) chars) eqn:E; [exact IH | right; eauto].
Qed.

Lemma endswith_slash_false s : endswith [47] s = false <-> s = [] \/ last s 0 <> 47.
Proof.
  destruct (rev s) as [|d r] eqn:E.
  - apply (f_equal (@rev Z)) in E; rewrite rev_involutive in E; subst s.
    split; intros _; [left | ]; reflexivity.
  - apply (f_equal (@rev Z)) in E; rewrite rev_involutive in E; subst s.
    simpl rev. rewrite last_last. unfold endswith.
    rewrite length_app; simpl length.
    replace (length (rev r) + 1 - 1)%nat with (length (rev r)) by lia.
    rewrite skipn_app_exact by reflexivity.
    replace ((1 <=? length (rev r) + 1)%nat) with true by (symmetry; apply Nat.leb_le; lia).
    simpl andb. unfold pystr_eqb.
    destruct (list_eq_dec Z.eq_dec [d] [47]) as [H|H].
    + injection H as ->. split; [discriminate|].
      intros [H|H]; [destruct (rev r); discriminate | congruence].
    + split; [intros _; right; intros ->; apply H; reflexivity | reflexivity].
Qed.

Lemma rstrip_slash_shape s : endswith [47] (rstrip_chars [47] s) = false.
Proof.
  apply endswith_slash_false. unfold rstrip_chars.
  destruct (lstrip_chars_shape [47] (rev s)) as [H | (c & t & H & E)]; rewrite H;
    [left; reflexivity|].
  right; simpl; rewrite last_last. intros ->; discriminate.
Qed.

Lemma rstrip_slash_id s : endswith [47] s = false -> rstrip_chars [47] s = s.
Proof.
  intros H; apply endswith_slash_false in H.
  unfold rstrip_chars. destruct (rev s) as [|d r] eqn:E.
  - apply (f_equal (@rev Z)) in E; rewrite rev_involutive in E; subst s; reflexivity.
  - cbn [lstrip_chars existsb]. rewrite orb_false_r.
    apply (f_equal (@rev Z)) in E; rewrite rev_involutive in E; subst s.
    destruct H as [H|H].
    + exfalso; apply (f_equal (@length Z)) in H; rewrite length_rev in H; discriminate.
    + simpl rev in H; rewrite last_last in H.
      destruct (Z.eqb_spec d 47); [congruence | reflexivity].
Qed.

(** [parse_s3_uri] raises exactly on URIs without the [s3://] scheme; on
    the others the bucket contains no [/] and the returned prefix never
    ends with [/]. *)
Theorem parse_s3_uri_shape (uri : pystr) :
  (parse_s3_uri uri = None <-> startswith (of_ascii "s3://") uri = false) /\
  (forall bucket prefix, parse_s3_uri uri = Some (bucket, prefix) ->
     ~ In 47 bucket /\ endswith (of_ascii "/") prefix = false).
Proof.
  unfold parse_s3_uri.
  split; [destruct (startswith (of_ascii "s3://") uri); simpl; split; congruence|].
  intros bucket prefix.
  destruct (startswith (of_ascii "s3://") uri); [|discriminate].
  set (sk := skipn 5 uri).
  destruct (split1_spec 47 sk) as [[Hn E] | (p & t & _ & Hp & E)]; rewrite E;
    cbn [negb nth length Nat.ltb Nat.leb]; intros [= <- <-];
    (split; [assumption | apply rstrip_slash_shape]).
Qed.

Lemma split1_app sep p t : ~ In sep p -> split1 sep (p ++ sep :: t) = [p; t].
Proof.
  intros Hp; induction p as [|c p IH]; simpl.
  - rewrite Z.eqb_refl; reflexivity.
  - destruct (Z.eqb_spec c sep) as [->|Hne]; [exfalso; apply Hp; left; reflexivity|].
    rewrite IH by (intros H; apply Hp; right; exact H). reflexivity.
Qed.

(** The object URIs that [list_s3_pdfs] builds, [s3://{bucket}/{key}],
    parse back in [download_s3_object_to_memory] to the same bucket and key,
    for a bucket without [/] and a key not ending in [/]. *)
Theorem s3_object_uri_roundtrip (bucket key : pystr)
  (Hb : ~ In 47 bucket) (Hk : endswith (of_ascii "/") key = false) :
  parse_s3_uri (s3_object_uri bucket key) = Some (bucket, key).
Proof.
  unfold parse_s3_uri, s3_object_uri.
  replace (startswith (of_ascii "s3://") (of_ascii "s3://" ++ bucket ++ [47] ++ key)) with true
    by (symmetry; apply startswith_true; eexists; reflexivity).
  cbn [negb]. rewrite skipn_app_exact by reflexivity.
  simpl app. rewrite split1_app by exact Hb. simpl.
  rewrite rstrip_slash_id by exact Hk. reflexivity.
Qed.

Lemma range_up_cons fuel i stop step x rest :
  range_up fuel i stop step = x :: rest ->
  x = i /\ i < stop /\ exists f, fuel = S f /\ rest = range_up f (i + step) stop step.
Proof.
  destruct fuel as [|f]; simpl; [discriminate|].
  destruct (i <? stop) eqn:E; [|discriminate]. intros [= <- <-].
  apply Z.ltb_lt in E; eauto.
Qed.

Lemma batched_up {A} (l : list A) (n : Z) (Hn : 0 < n) :
  forall fuel i, 0 <= i -> (Z.to_nat (Z.of_nat (length l) - i) <= fuel)%nat ->
  let bs := map (fun j => slice l j (j + n)) (range_up fuel i (Z.of_nat (length l)) n) in
  concat bs = skipn (Z.to_nat i) l /\
  (forall b, In b bs -> b <> [] /\ (length b <= Z.to_nat n)%nat) /\
  (forall pre b post, bs = pre ++ b :: post -> post <> [] -> length b = Z.to_nat n).
Proof.
  induction fuel as [|f IH]; intros i Hi Hf bs.
  - subst bs; simpl. split; [|split; [tauto|]].
    + rewrite skipn_all2 by lia; reflexivity.
    + intros pre b post H; destruct pre; discriminate.
  - subst bs; simpl range_up.
    destruct (i <? Z.of_nat (length l)) eqn:E.
    2:{ apply Z.ltb_ge in E. simpl. split; [rewrite skipn_all2 by lia; reflexivity|].
        split; [tauto|]. intros pre b post H; destruct pre; discriminate. }
    apply Z.ltb_lt in E.
    destruct (IH (i + n) ltac:(lia) ltac:(lia)) as (Hc & Hb & Hfull).
    set (rest := range_up f (i + n) (Z.of_nat (length l)) n) in *.
    assert (Hsl : slice l i (i + n) = firstn (Z.to_nat n) (skipn (Z.to_nat i) l)).
    { unfold slice; f_equal; lia. }
    assert (Hlen : length (skipn (Z.to_nat i) l) = (length l - Z.to_nat i)%nat)
      by apply length_skipn.
    cbn [map concat]. rewrite Hsl.
    split.
    + rewrite Hc. replace (Z.to_nat (i + n)) with (Z.to_nat n + Z.to_nat i)%nat by lia.
      rewrite <- skipn_skipn. apply firstn_skipn.
    + split.
      * intros b [<- | Hin]; [|exact (Hb b Hin)].
        rewrite length_firstn. split; [|lia].
        intros H; apply (f_equal (@length A)) in H; rewrite length_firstn in H; simpl in H; lia.
      * intros [|p pre] b post H Hpost.
        -- injection H as <- Hr.
           destruct rest as [|x r] eqn:Er; [destruct post; [congruence | discriminate]|].
           destruct (range_up_cons _ _ _ _ _ _ Er) as (_ & Hlt & _).
           rewrite length_firstn; lia.
        -- injection H as _ Hr. exact (Hfull pre b post Hr Hpost).
Qed.

(** [batched(l, n)] raises for [n = 0] and yields nothing for a negative
    [n]; for a positive [n] its batches, concatenated, give back [l], each
    is non-empty with at most [n] elements, and every batch but the last
    has exactly [n]. *)
Theorem batched_partition {A} (l : list A) (n : Z) :
  (n = 0 -> batched l n = None) /\
  (n < 0 -> batched l n = Some []) /\
  (0 < n -> exists bs, batched l n = Some bs /\ concat bs = l /\
     (forall b, In b bs -> b <> [] /\ (length b <= Z.to_nat n)%nat) /\
     (forall pre b post, bs = pre ++ b :: post -> post <> [] -> length b = Z.to_nat n)).
Proof.
  split; [intros ->; reflexivity|].
  split.
  - intros Hn; unfold batched, py_range.
    replace (n =? 0) with false by lia. replace (0 <? n) with false by lia.
    replace (Z.to_nat (0 - Z.of_nat (length l))) with 0%nat by lia. reflexivity.
  - intros Hn; unfold batched, py_range.
    replace (n =? 0) with false by lia. replace (0 <? n) with true by lia.
    eexists; split; [reflexivity|].
    destruct (batched_up l n Hn (Z.to_nat (Z.of_nat (length l) - 0)) 0 ltac:(lia) ltac:(lia))
      as (Hc & Hb & Hf).
    split; [exact Hc | split; [exact Hb | exact Hf]].
Qed.

End IngestHelperProofs.

(** ** Text cleaning and chunking *)
Section CleanProofs.

Import Ingest Props.
Local Open Scope Z_scope.

Lemma ws_ok_sub_runs b s : ws_ok b (sub_runs is_space b s) = true.
Proof.
  revert b; induction s as [|c s IH]; intros b; simpl; [reflexivity|].
  destruct (is_space c) eqn:E.
  - destruct b; [apply IH|]. simpl; rewrite IH; reflexivity.
  - simpl; rewrite E; apply IH.
Qed.

Lemma ws_ok_true_false s : ws_ok true s = true -> ws_ok false s = true.
Proof.
  destruct s as [|c s]; simpl; [auto|].
  destruct (is_space c); [rewrite andb_false_r; simpl; discriminate | auto].
Qed.

Lemma ws_ok_lstrip b s : ws_ok b s = true -> ws_ok false (lstrip s) = true.
Proof.
  revert b; induction s as [|c s IH]; intros b; simpl; [auto|].
  destruct (is_space c) eqn:E.
  - intros H; apply andb_true_iff in H as [_ H]; exact (IH true H).
  - simpl; rewrite E; auto.
Qed.

Lemma ws_ok_prefix b x y : ws_ok b (x ++ y) = true -> ws_ok b x = true.
Proof.
  revert b; induction x as [|c x IH]; intros b; simpl; [auto|].
  destruct (is_space c).
  - intros H; apply andb_true_iff in H as [H1 H2]; rewrite H1; simpl; exact (IH true H2).
  - apply IH.
Qed.

Lemma ws_ok_rstrip b s : ws_ok b s = true -> ws_ok b (rstrip s) = true.
Proof.
  intros H; destruct (rstrip_prefix s) as [y Hy]; rewrite Hy in H.
  exact (ws_ok_prefix b _ _ H).
Qed.

Lemma clean_text_ws_ok t : ws_ok false (clean_text t) = true.
Proof.
  unfold clean_text, strip. apply ws_ok_rstrip.
  eapply ws_ok_lstrip; apply ws_ok_sub_runs.
Qed.

Lemma ws_ok_space_is_32 b s x : ws_ok b s = true -> In x s -> is_space x = true -> x = 32.
Proof.
  revert b; induction s as [|c s IH]; intros b; simpl; [tauto|].
  destruct (is_space c) eqn:E.
  - intros H; apply andb_true_iff in H as [H1 H2]; apply andb_true_iff in H1 as [H1 _].
    intros [<-|Hin] Hx; [apply Z.eqb_eq; exact H1 | exact (IH true H2 Hin Hx)].
  - intros H [<-|Hin] Hx; [congruence | exact (IH false H Hin Hx)].
Qed.

Lemma ws_ok_no_adjacent b pre x y post :
  ws_ok b (pre ++ x :: y :: post) = true -> is_space x = true -> is_space y = true -> False.
Proof.
  revert b; induction pre as [|c pre IH]; intros b; simpl.
  - intros H Hx Hy; simpl in H; rewrite Hx, Hy in H.
    apply andb_true_iff in H as [_ H]; apply andb_true_iff in H as [H _].
    apply andb_true_iff in H as [_ H]; discriminate.
  - destruct (is_space c).
    + intros H; apply andb_true_iff in H as [_ H]; exact (IH true H).
    + apply IH.
Qed.

Lemma clean_text_ends t :
  (forall x rest, clean_text t = x :: rest -> is_space x = false) /\
  (forall pre x, clean_text t = pre ++ [x] -> is_space x = false).
Proof.
  unfold clean_text, strip.
  set (L := lstrip (sub_runs is_space false (sub_runs is_tab_cr_ff false (replace_nbsp t)))).
  split.
  - destruct (lstrip_shape (sub_runs is_space false (sub_runs is_tab_cr_ff false (replace_nbsp t))))
      as [H | (c & u & H & E)]; fold L in H; rewrite H.
    + intros x rest Hr; discriminate.
    + destruct (rstrip_nonspace_head c u E) as [w Hw]; rewrite Hw.
      intros x rest [= <- _]; exact E.
  - unfold rstrip. destruct (lstrip_shape (rev L)) as [H | (c & u & H & E)]; rewrite H.
    + intros pre x Hp; destruct pre; discriminate.
    + simpl. intros pre x Hp. apply app_inj_tail in Hp as [_ <-]; exact E.
Qed.

(** [clean_text] output: every whitespace character is a plain space, no
    two spaces are adjacent, and the text neither starts nor ends with
    whitespace. *)
Theorem clean_text_normal_form (t : pystr) :
  let c := clean_text t in
  (forall x, In x c -> is_space x = true -> x = 32) /\
  (forall pre x y post, c = pre ++ x :: y :: post ->
     ~ (is_space x = true /\ is_space y = true)) /\
  (forall x rest, c = x :: rest -> is_space x = false) /\
  (forall pre x, c = pre ++ [x] -> is_space x = false).
Proof.
  intros c. pose proof (clean_text_ws_ok t) as Hw; fold c in Hw.
  destruct (clean_text_ends t) as [H1 H2]; fold c in H1, H2.
  split; [intros x Hin Hx; exact (ws_ok_space_is_32 false c x Hw Hin Hx)|].
  split; [intros pre x y post Hc [Hx Hy]; rewrite Hc in Hw;
          exact (ws_ok_no_adjacent false pre x y post Hw Hx Hy)|].
  split; assumption.
Qed.

Lemma sub_runs_id_none (p : Z -> bool) b s :
  (forall x, In x s -> p x = false) -> sub_runs p b s = s.
Proof.
  revert b; induction s as [|c s IH]; intros b H; simpl; [reflexivity|].
  rewrite (H c (or_introl eq_refl)); f_equal; apply IH; intros; apply H; right; assumption.
Qed.

Lemma sub_runs_id_ws b s : ws_ok b s = true -> sub_runs is_space b s = s.
Proof.
  revert b; induction s as [|c s IH]; intros b; simpl; [reflexivity|].
  destruct (is_space c) eqn:E.
  - intros H; apply andb_true_iff in H as [H1 H2]; apply andb_true_iff in H1 as [H1 H3].
    apply Z.eqb_eq in H1; subst c. destruct b; [discriminate|].
    f_equal; apply IH; exact H2.
  - intros H; f_equal; apply IH; exact H.
Qed.

Lemma strip_id_ends s :
  (forall x rest, s = x :: rest -> is_space x = false) ->
  (forall pre x, s = pre ++ [x] -> is_space x = false) -> strip s = s.
Proof.
  intros H1 H2. destruct s as [|x rest]; [reflexivity|].
  unfold strip. rewrite lstrip_nonspace by exact (H1 x rest eq_refl).
  destruct (exists_last (l := x :: rest) ltac:(discriminate)) as (pre & z & Hz).
  rewrite Hz. apply rstrip_snoc_nonspace. apply (H2 pre z Hz).
Qed.

(** [clean_text] is idempotent: cleaning an already cleaned text changes
    nothing. *)
Theorem clean_text_idempotent (t : pystr) : clean_text (clean_text t) = clean_text t.
Proof.
  set (c := clean_text t).
  pose proof (clean_text_ws_ok t) as Hw; fold c in Hw.
  destruct (clean_text_ends t) as [H1 H2]; fold c in H1, H2.
  assert (H32 : forall x, In x c -> is_space x = true -> x = 32)
    by (intros x Hin Hx; exact (ws_ok_space_is_32 false c x Hw Hin Hx)).
  assert (Hn : replace_nbsp c = c).
  { unfold replace_nbsp. rewrite <- (map_id c) at 2. apply map_ext_in.
    intros x Hin. destruct (Z.eqb_spec x 160) as [->|]; [|reflexivity].
    specialize (H32 160 Hin eq_refl); discriminate. }
  assert (Ht : sub_runs is_tab_cr_ff false c = c).
  { apply sub_runs_id_none. intros x Hin. unfold is_tab_cr_ff.
    destruct (is_space x) eqn:Ex.
    - rewrite (H32 x Hin Ex); reflexivity.
    - destruct (Z.eqb_spec x 9) as [->|]; [discriminate|].
      destruct (Z.eqb_spec x 13) as [->|]; [discriminate|].
      destruct (Z.eqb_spec x 12) as [->|]; [discriminate | reflexivity]. }
  unfold clean_text at 1. rewrite Hn, Ht, (sub_runs_id_ws false c Hw).
  apply strip_id_ends; assumption.
Qed.

End CleanProofs.

Section ChunkProofs.

Import Ingest Props.
Local Open Scope Z_scope.

Context (sha256_hex : pystr -> pystr).

Lemma dedupe_sub seen cs c : In c (dedupe seen cs) -> In c cs.
Proof.
  revert seen; induction cs as [|c' cs IH]; intros seen; simpl; [tauto|].
  destruct (existsb (pystr_eqb (c_row_hash c')) seen).
  - intros H; right; exact (IH _ H).
  - intros [H|H]; [left; exact H | right; exact (IH _ H)].
Qed.

Lemma dedupe_nodup seen cs :
  NoDup (map c_row_hash (dedupe seen cs)) /\
  (forall c, In c (dedupe seen cs) -> ~ In (c_row_hash c) seen).
Proof.
  revert seen; induction cs as [|c cs IH]; intros seen; simpl.
  - split; [constructor | tauto].
  - destruct (existsb (pystr_eqb (c_row_hash c)) seen) eqn:E; [apply IH|].
    destruct (IH (c_row_hash c :: seen)) as [Hn Hs].
    split.
    + simpl; constructor; [|exact Hn].
      intros Hin; apply in_map_iff in Hin as (c' & Hh & Hin).
      apply (Hs c' Hin); left; symmetry; exact Hh.
    + intros c' [<- | Hin].
      * intros Hin; assert (existsb (pystr_eqb (c_row_hash c)) seen = true)
          by (apply existsb_exists; exists (c_row_hash c); split; [exact Hin | apply pystr_eqb_refl]).
        congruence.
      * intros Hin'; apply (Hs c' Hin); right; exact Hin'.
Qed.

(** The chunks of one document carry pairwise distinct row hashes, for any
    hash function. *)
Theorem make_chunks_distinct_hashes (doc_id source_uri : pystr) (pages : list pystr) :
  NoDup (map c_row_hash (make_chunks sha256_hex doc_id source_uri pages)).
Proof. apply dedupe_nodup. Qed.

Lemma build_chunks_spec doc_id source_uri idx pages c :
  In c (build_chunks sha256_hex doc_id source_uri idx pages) ->
  exists k raw, nth_error pages k = Some raw /\
    c_text c = clean_text raw /\ valid_chunk (c_text c) = true /\
    c_id c = doc_id ++ of_ascii "#page-" ++ zfill4 (idx + Z.of_nat k) /\
    page_of c = Some (PyInt (idx + Z.of_nat k)) /\
    c_row_hash c = sha256_hex (c_text c) /\ c_token_count c = count_words false (c_text c).
Proof.
  revert idx; induction pages as [|raw rest IH]; intros idx; simpl; [tauto|].
  destruct (valid_chunk (clean_text raw)) eqn:Ev; simpl negb.
  - intros [<- | Hin].
    + exists 0%nat, raw; simpl. rewrite Z.add_0_r. repeat split; auto.
    + destruct (IH (idx + 1) Hin) as (k & r & Hk & Hrest).
      exists (S k), r; replace (idx + Z.of_nat (S k)) with (idx + 1 + Z.of_nat k) by lia; split; auto.
  - intros Hin; destruct (IH (idx + 1) Hin) as (k & r & Hk & Hrest).
    exists (S k), r; replace (idx + Z.of_nat (S k)) with (idx + 1 + Z.of_nat k) by lia; split; auto.
Qed.

(** Every chunk of [make_chunks] comes from page number [p] (1-based) of
    the document: its text is that page cleaned, at least 20 characters
    long, its id is [doc_id#page-NNNN], its [page] metadata is [p], its
    row hash is the hash of its text and its token count the number of
    words of its text. *)
Theorem make_chunks_provenance (doc_id source_uri : pystr) (pages : list pystr) c :
  In c (make_chunks sha256_hex doc_id source_uri pages) ->
  exists p raw, 1 <= p /\ nth_error pages (Z.to_nat (p - 1)) = Some raw /\
    c_text c = clean_text raw /\ (20 <= Z.of_nat (length (c_text c))) /\
    c_id c = doc_id ++ of_ascii "#page-" ++ zfill4 p /\
    page_of c = Some (PyInt p) /\
    c_row_hash c = sha256_hex (c_text c) /\ c_token_count c = count_words false (c_text c).
Proof.
  intros Hin; apply dedupe_sub in Hin.
  destruct (build_chunks_spec doc_id source_uri 1 pages c Hin)
    as (k & raw & Hk & Ht & Hv & Hi & Hp & Hh & Hc).
  exists (1 + Z.of_nat k), raw.
  replace (Z.to_nat (1 + Z.of_nat k - 1)) with k by lia.
  unfold valid_chunk in Hv; apply Z.leb_le in Hv.
  repeat split; auto; lia.
Qed.

Lemma build_chunks_sorted doc_id source_uri idx pages :
  StronglySorted page_lt (map page_of (build_chunks sha256_hex doc_id source_uri idx pages)) /\
  Forall (fun c => exists p, page_of c = Some (PyInt p) /\ idx <= p)
    (build_chunks sha256_hex doc_id source_uri idx pages).
Proof.
  revert idx; induction pages as [|raw rest IH]; intros idx; simpl.
  - split; constructor.
  - destruct (IH (idx + 1)) as [Hs Hf].
    destruct (valid_chunk (clean_text raw)); simpl negb.
    + split.
      * simpl map. constructor; [exact Hs|].
        apply Forall_map. eapply Forall_impl; [|exact Hf].
        intros c (p & Hp & Hle). rewrite Hp. simpl. lia.
      * constructor; [exists idx; split; [reflexivity | lia]|].
        eapply Forall_impl; [|exact Hf]. intros c (p & Hp & Hle); exists p; split; [exact Hp | lia].
    + split; [exact Hs|].
      eapply Forall_impl; [|exact Hf]. intros c (p & Hp & Hle); exists p; split; [exact Hp | lia].
Qed.

Lemma dedupe_sorted seen cs :
  StronglySorted page_lt (map page_of cs) ->
  StronglySorted page_lt (map page_of (dedupe seen cs)).
Proof.
  revert seen; induction cs as [|c cs IH]; intros seen Hs; simpl; [constructor|].
  simpl in Hs; apply StronglySorted_inv in Hs as [Hs Hf].
  destruct (existsb (pystr_eqb (c_row_hash c)) seen); [apply IH; exact Hs|].
  simpl; constructor; [apply IH; exact Hs|].
  apply Forall_forall; intros x Hx. apply in_map_iff in Hx as (c' & <- & Hc').
  apply dedupe_sub in Hc'. rewrite Forall_forall in Hf. apply Hf, in_map; exact Hc'.
Qed.

(** The chunks of [make_chunks] are in strictly increasing page order, so
    a document yields at most one chunk per page. *)
Theorem make_chunks_page_order (doc_id source_uri : pystr) (pages : list pystr) :
  StronglySorted page_lt (map page_of (make_chunks sha256_hex doc_id source_uri pages)).
Proof.
  unfold make_chunks; apply dedupe_sorted. apply build_chunks_sorted.
Qed.

End ChunkProofs.

(** ** Further properties of the faiss-wrap store *)
Section StoreExtraProofs.

Import FaissWrap.

Context {vec : Type} (encode : pystr -> vec) (normalize_L2 : vec -> vec)
  (inner : vec -> vec -> Q).

Lemma isin_in x ids : In x ids -> isin x ids = true.
Proof.
  intros H; unfold isin; apply existsb_exists; exists x; split; [exact H | apply pystr_eqb_refl].
Qed.

Lemma isin_true x ids : isin x ids = true -> In x ids.
Proof.
  unfold isin; intros H; apply existsb_exists in H as [y [Hy Hxy]].
  apply pystr_eqb_eq in Hxy; subst; exact Hy.
Qed.

Lemma filter_filter_and {A} (f g : A -> bool) (l : list A) :
  filter f (filter g l) = filter (fun a => g a && f a) l.
Proof.
  induction l as [|a l IH]; simpl; [reflexivity|].
  destruct (g a); simpl; [destruct (f a); simpl|]; rewrite IH; reflexivity.
Qed.

Lemma filter_items_rows (items : list item) :
  filter (fun r => negb (isin (row_id r) (map it_id items))) (map to_row items) = [].
Proof.
  apply filter_false_nil; intros r Hr.
  apply in_map_iff in Hr as [it [<- Hit]].
  cbv beta; change (row_id (to_row it)) with (it_id it).
  rewrite (isin_in _ _ (in_map it_id _ _ Hit)); reflexivity.
Qed.

Lemma nodup_map_filter {A B} (f : A -> B) (g : A -> bool) (l : list A) :
  NoDup (map f l) -> NoDup (map f (filter g l)).
Proof.
  induction l as [|a l IH]; simpl; intros H; [constructor|].
  apply NoDup_cons_iff in H as [Hn Hd].
  destruct (g a); simpl; [|apply IH; exact Hd].
  constructor; [|apply IH; exact Hd].
  intros Hin; apply Hn.
  apply in_map_iff in Hin as [x [Hx Hin]]; apply filter_In in Hin as [Hin _].
  rewrite <- Hx; apply in_map; exact Hin.
Qed.

(** The response of a non-empty [upsert] on a ready store. *)
Lemma upsert_response (st : store vec) (items : list item) :
  ready st = true -> items <> [] ->
  fst (upsert encode normalize_L2 items st) =
    Ok [(of_ascii "upserted", PyInt (Z.of_nat (length items)));
        (of_ascii "total_items",
         PyInt (Z.of_nat (length (meta_df (snd (upsert encode normalize_L2 items st))))))].
Proof.
  intros Hr Hne.
  destruct items as [|it0 items0]; [congruence|].
  destruct st as [rd ix md dk]; cbn in Hr; subst rd.
  unfold upsert; cbn [negb ready meta_df index disk].
  cbv iota zeta.
  destruct (existsb _ _); [destruct (filter _ _)|]; rewrite length_map; reflexivity.
Qed.

(** On an aligned store, a non-empty [upsert] leaves the index equal to the
    embeddings of the new rows, and persists both. *)
Lemma upsert_aligned_state (st : store vec) (items : list item) :
  aligned encode normalize_L2 st -> ready st = true -> items <> [] ->
  let meta' := filter (fun r => negb (isin (row_id r) (map it_id items))) (meta_df st)
               ++ map to_row items in
  snd (upsert encode normalize_L2 items st) =
    mk_store true (map (emb_of encode normalize_L2) meta') meta'
      (Some (map (emb_of encode normalize_L2) meta', meta')).
Proof.
  intros Hal Hr Hne meta'.
  rewrite (upsert_state encode normalize_L2 st items Hr Hne).
  assert (Hi : (if existsb (fun r => isin (row_id r) (map it_id items)) (meta_df st)
                then map (emb_of encode normalize_L2)
                       (filter (fun r => negb (isin (row_id r) (map it_id items))) (meta_df st))
                else index st)
               ++ map (fun it => normalize_L2 (encode (it_text it))) items
               = map (emb_of encode normalize_L2) meta').
  { subst meta'. rewrite map_app, map_map. f_equal.
    destruct (existsb _ (meta_df st)) eqn:Hex; [reflexivity|].
    rewrite (filter_negb_id _ _ Hex); exact Hal. }
  rewrite Hi; reflexivity.
Qed.

Lemma kept_idem (items : list item) (meta : list row) :
  filter (fun r => negb (isin (row_id r) (map it_id items)))
    (filter (fun r => negb (isin (row_id r) (map it_id items))) meta ++ map to_row items)
  ++ map to_row items
  = filter (fun r => negb (isin (row_id r) (map it_id items))) meta ++ map to_row items.
Proof.
  rewrite filter_app, filter_items_rows, filter_filter_and, app_nil_r. f_equal.
  apply filter_ext; intros r; apply andb_diag.
Qed.

(** The search facts of [IndexFlatIP]: ranking by insertion. *)
Lemma insert_desc_perm (p : Q * Z) (l : list (Q * Z)) : Permutation (insert_desc p l) (p :: l).
Proof.
  induction l as [|h t IH]; simpl; [reflexivity|].
  destruct (negb (Qle_bool (fst p) (fst h))); [reflexivity|].
  eapply perm_trans; [apply perm_skip, IH | apply perm_swap].
Qed.

Lemma insert_desc_sorted (p : Q * Z) (l : list (Q * Z)) :
  StronglySorted (fun a b : Q * Z => (fst b <= fst a)%Q) l ->
  StronglySorted (fun a b : Q * Z => (fst b <= fst a)%Q) (insert_desc p l).
Proof.
  induction l as [|h t IH]; simpl; intros H.
  - constructor; constructor.
  - pose proof H as H0; apply StronglySorted_inv in H0 as [Ht Hf].
    destruct (Qle_bool (fst p) (fst h)) eqn:E; simpl.
    + apply Qle_bool_iff in E.
      constructor; [apply IH; exact Ht|].
      apply Forall_forall; intros x Hx.
      apply (Permutation_in _ (insert_desc_perm p t)) in Hx.
      destruct Hx as [<- | Hx]; [exact E|].
      rewrite Forall_forall in Hf; exact (Hf x Hx).
    + assert (Hlt : (fst h < fst p)%Q).
      { apply Qnot_le_lt; intros Hle; apply Qle_bool_iff in Hle; congruence. }
      constructor; [exact H|].
      constructor; [apply Qlt_le_weak; exact Hlt|].
      eapply Forall_impl; [|exact Hf].
      intros x Hx; eapply Qle_trans; [exact Hx | apply Qlt_le_weak; exact Hlt].
Qed.

Lemma fold_insert_spec (l acc : list (Q * Z)) :
  StronglySorted (fun a b : Q * Z => (fst b <= fst a)%Q) acc ->
  StronglySorted (fun a b : Q * Z => (fst b <= fst a)%Q)
    (fold_left (fun acc p => insert_desc p acc) l acc) /\
  Permutation (fold_left (fun acc p => insert_desc p acc) l acc) (l ++ acc).
Proof.
  revert acc; induction l as [|x l IH]; intros acc H; simpl; [split; [exact H | reflexivity]|].
  destruct (IH (insert_desc x acc) (insert_desc_sorted x acc H)) as [H1 H2].
  split; [exact H1|].
  eapply perm_trans; [exact H2|].
  eapply perm_trans; [apply Permutation_app_head, insert_desc_perm|].
  apply Permutation_sym, Permutation_middle.
Qed.

Lemma SS_firstn {A} (R : A -> A -> Prop) (n : nat) (l : list A) :
  StronglySorted R l -> StronglySorted R (firstn n l).
Proof.
  revert l; induction n as [|n IH]; intros l H; [constructor|].
  destruct l as [|a l]; [constructor|]. simpl.
  apply StronglySorted_inv in H as [H1 H2].
  constructor; [apply IH; exact H1|].
  rewrite Forall_forall in *; intros x Hx; apply H2.
  rewrite <- (firstn_skipn n l); apply in_or_app; left; exact Hx.
Qed.

Lemma SS_map {A B} (R : A -> A -> Prop) (R' : B -> B -> Prop) (f : A -> B) (l : list A) :
  (forall a b, R a b -> R' (f a) (f b)) -> StronglySorted R l -> StronglySorted R' (map f l).
Proof.
  intros HR; induction l as [|a l IH]; intros H; simpl; [constructor|].
  apply StronglySorted_inv in H as [H1 H2].
  constructor; [apply IH; exact H1|].
  apply Forall_map; eapply Forall_impl; [|exact H2]; intros b; apply HR.
Qed.

Lemma scored_in (f : vec -> Q) (l : list vec) (start : nat) (s : Q) (i : Z) :
  In (s, i) (combine (map f l) (map Z.of_nat (seq start (length l)))) ->
  exists p v, i = Z.of_nat (start + p) /\ nth_error l p = Some v /\ s = f v.
Proof.
  revert start; induction l as [|v l IH]; intros start H; simpl in H; [contradiction|].
  destruct H as [H | H].
  - injection H as <- <-. exists 0%nat, v. rewrite Nat.add_0_r. auto.
  - destruct (IH (S start) H) as [p [w [Hi [Hp Hs]]]].
    exists (S p), w. split; [rewrite Hi; f_equal; lia | auto].
Qed.

Lemma scored_snd (f : vec -> Q) (l : list vec) (start : nat) :
  map snd (combine (map f l) (map Z.of_nat (seq start (length l))))
  = map Z.of_nat (seq start (length l)).
Proof.
  revert start; induction l as [|v l IH]; intros start; simpl; [reflexivity|]; now rewrite IH.
Qed.

Lemma scored_length (f : vec -> Q) (l : list vec) (start : nat) :
  length (combine (map f l) (map Z.of_nat (seq start (length l)))) = length l.
Proof. rewrite length_combine, !length_map, length_seq; lia. Qed.

Lemma nodup_of_nat_seq (start n : nat) : NoDup (map Z.of_nat (seq start n)).
Proof.
  revert start; induction n as [|n IH]; intros start; simpl.
  - constructor.
  - constructor; [|apply IH].
    intros Hin; apply in_map_iff in Hin as [x [Hx Hin]]; apply in_seq in Hin; lia.
Qed.

(** [flat_search]: the hits are the best [min k n] positions in
    non-increasing score order, each position once, padded with label -1. *)
Lemma flat_search_spec (idx : list vec) (qv : vec) (kk : Z) :
  exists top,
    flat_search inner idx qv kk
      = top ++ repeat (faiss_missing_score, (-1)%Z) (Z.to_nat kk - length top) /\
    length top = Nat.min (Z.to_nat kk) (length idx) /\
    StronglySorted (fun a b : Q * Z => (fst b <= fst a)%Q) top /\
    NoDup (map snd top) /\
    (forall s i, In (s, i) top ->
       exists p v, i = Z.of_nat p /\ nth_error idx p = Some v /\ s = inner qv v).
Proof.
  unfold flat_search.
  set (scored := combine (map (inner qv) idx) (map Z.of_nat (seq 0 (length idx)))).
  destruct (fold_insert_spec scored [] (SSorted_nil _)) as [Hs Hp].
  rewrite app_nil_r in Hp.
  set (ranked := fold_left (fun acc p => insert_desc p acc) scored []) in *.
  exists (firstn (Z.to_nat kk) ranked).
  split; [reflexivity|].
  split. { rewrite length_firstn, (Permutation_length Hp). unfold scored; rewrite scored_length; reflexivity. }
  split. { apply SS_firstn; exact Hs. }
  split.
  { rewrite <- firstn_map.
    apply (NoDup_app_remove_r _ (skipn (Z.to_nat kk) (map snd ranked))).
    rewrite firstn_skipn.
    apply (Permutation_NoDup (Permutation_map snd (Permutation_sym Hp))).
    unfold scored; rewrite scored_snd; apply nodup_of_nat_seq. }
  intros s i Hin.
  assert (Hin' : In (s, i) scored).
  { apply (Permutation_in _ Hp). rewrite <- (firstn_skipn (Z.to_nat kk) ranked).
    apply in_or_app; left; exact Hin. }
  exact (scored_in (inner qv) idx 0 s i Hin').
Qed.

Lemma collect_results_app (meta : list row) (a b : list (Q * Z)) :
  collect_results meta (a ++ b) = collect_results meta a ++ collect_results meta b.
Proof.
  induction a as [|[s i] a IH]; simpl; [reflexivity|].
  destruct ((i <? 0)%Z || (Z.of_nat (length meta) <=? i)%Z); [exact IH|].
  destruct (nth_error meta (Z.to_nat i)); simpl; rewrite ?IH; reflexivity.
Qed.

Lemma collect_results_pad (meta : list row) (n : nat) :
  collect_results meta (repeat (faiss_missing_score, (-1)%Z) n) = [].
Proof. induction n; simpl; auto. Qed.

Lemma collect_results_valid (meta : list row) (top : list (Q * Z)) :
  (forall s i, In (s, i) top -> (0 <= i < Z.of_nat (length meta))%Z) ->
  collect_results meta top =
  map (fun '(s, i) => let r := nth (Z.to_nat i) meta (mk_row [] [] []) in
         mk_result (row_id r) (row_text r) (row_metadata r) s) top.
Proof.
  induction top as [|[s i] top IH]; intros H; cbn [collect_results map]; [reflexivity|].
  destruct (H s i (or_introl eq_refl)) as [H1 H2].
  destruct ((i <? 0)%Z || (Z.of_nat (length meta) <=? i)%Z) eqn:E.
  { apply orb_true_iff in E as [E|E]; [apply Z.ltb_lt in E | apply Z.leb_le in E]; lia. }
  rewrite (nth_error_nth' meta (n := Z.to_nat i) (mk_row [] [] [])) by lia.
  f_equal. apply IH; intros s' i' Hin; apply (H s' i'); right; exact Hin.
Qed.

(** [search] on a ready aligned store with a non-blank query. *)
Lemma search_core (st : store vec) (q : pystr) (k : Z) :
  ready st = true -> aligned encode normalize_L2 st -> strip q <> [] ->
  exists top,
    fst (search encode normalize_L2 inner q k st) =
      Ok (map (fun '(s, i) => let r := nth (Z.to_nat i) (meta_df st) (mk_row [] [] []) in
                 mk_result (row_id r) (row_text r) (row_metadata r) s) top) /\
    length top = Nat.min (Z.to_nat (Z.max 1 (Z.min k 50))) (length (meta_df st)) /\
    StronglySorted (fun a b : Q * Z => (fst b <= fst a)%Q) top /\
    NoDup (map snd top) /\
    (forall s i, In (s, i) top -> exists p r, i = Z.of_nat p /\
        nth_error (meta_df st) p = Some r /\
        s = inner (normalize_L2 (encode (strip q))) (normalize_L2 (encode (row_text r)))).
Proof.
  intros Hr Hal Hq.
  unfold search; rewrite Hr; cbn [negb].
  destruct (strip q) as [|c q'] eqn:Hsq; [congruence|].
  cbv zeta; cbn [_embed map].
  unfold aligned in Hal.
  destruct (index st) as [|v0 vs] eqn:Hix.
  - exists [].
    destruct (meta_df st) as [|r0 rs]; [|discriminate Hal].
    split; [reflexivity|]. split; [simpl; lia|].
    split; [constructor|]. split; [constructor|]. intros s i [].
  - cbn match. rewrite <- Hix. rewrite <- Hix in Hal.
    destruct (flat_search_spec (index st) (normalize_L2 (encode (c :: q'))) (Z.max 1 (Z.min k 50)))
      as [top [Hf [Hl [Hs [Hn Hin]]]]].
    exists top.
    rewrite Hf, collect_results_app, collect_results_pad, app_nil_r.
    rewrite collect_results_valid.
    2:{ intros s i H; destruct (Hin s i H) as [p [v [-> [Hp _]]]].
        assert (Hlt : (p < length (index st))%nat) by (apply nth_error_Some; congruence).
        rewrite Hal, length_map in Hlt. lia. }
    split; [reflexivity|].
    split; [rewrite Hal, length_map in Hl; exact Hl|].
    split; [exact Hs|]. split; [exact Hn|].
    intros s i H; destruct (Hin s i H) as [p [v [Hi [Hp Hs']]]].
    rewrite Hal, nth_error_map in Hp.
    destruct (nth_error (meta_df st) p) as [r|] eqn:Er; simpl in Hp; [|discriminate].
    injection Hp as <-.
    exists p, r. split; [exact Hi | split; [exact Er | exact Hs']].
Qed.

Lemma rows_of_top (meta : list row) (score : row -> Q) (top : list (Q * Z)) :
  NoDup (map snd top) ->
  (forall s i, In (s, i) top ->
     exists p r, i = Z.of_nat p /\ nth_error meta p = Some r /\ s = score r) ->
  NoDup (map (fun a => Z.to_nat (snd a)) top) /\
  Forall2 (fun p res => exists r, nth_error meta p = Some r /\
             res = mk_result (row_id r) (row_text r) (row_metadata r) (score r))
    (map (fun a => Z.to_nat (snd a)) top)
    (map (fun '(s, i) => let r := nth (Z.to_nat i) meta (mk_row [] [] []) in
           mk_result (row_id r) (row_text r) (row_metadata r) s) top).
Proof.
  induction top as [|[s i] top IH]; intros Hn Hin; simpl; [split; constructor|].
  apply NoDup_cons_iff in Hn as [Hni Hn].
  destruct IH as [IH1 IH2]; [exact Hn | intros s' i' H'; apply Hin; right; exact H'|].
  destruct (Hin s i (or_introl eq_refl)) as [p [r [-> [Hp ->]]]].
  rewrite Nat2Z.id.
  split.
  - constructor; [|exact IH1].
    intros Hx. apply in_map_iff in Hx as [[s' i'] [Hx Hy]]. simpl in Hx.
    destruct (Hin s' i' (or_intror Hy)) as [p' [r' [Hi' _]]]. subst i'.
    rewrite Nat2Z.id in Hx. subst p'.
    apply Hni. apply (in_map snd) in Hy. exact Hy.
  - constructor; [|exact IH2].
    exists r. split; [exact Hp|].
    rewrite (nth_error_nth meta p (mk_row [] [] []) Hp); reflexivity.
Qed.

End StoreExtraProofs.

Section StoreExtras.

Import FaissWrap.

Context {vec : Type} (encode : pystr -> vec) (normalize_L2 : vec -> vec)
  (inner : vec -> vec -> Q).

(** Repeating an [upsert] call on the store it produced (aligned, as every
    store reached from startup is) returns the same response and leaves
    the store unchanged. *)
Theorem upsert_idempotent (st : store vec) (items : list item)
  (Hal : aligned encode normalize_L2 st) :
  upsert encode normalize_L2 items (snd (upsert encode normalize_L2 items st))
  = upsert encode normalize_L2 items st.
Proof.
  destruct (ready st) eqn:Hr.
  2:{ assert (Hs : snd (upsert encode normalize_L2 items st) = st)
        by (unfold upsert; rewrite Hr; reflexivity).
      rewrite Hs; reflexivity. }
  assert (Hne : items = [] \/ items <> []) by (destruct items; [left | right]; congruence).
  destruct Hne as [-> | Hne].
  { assert (Hs : snd (upsert encode normalize_L2 [] st) = st)
      by (unfold upsert; rewrite Hr; reflexivity).
    rewrite Hs; reflexivity. }
  pose proof (upsert_aligned_state encode normalize_L2 st items Hal Hr Hne) as Hs1.
  cbv zeta in Hs1.
  assert (Hsnd : snd (upsert encode normalize_L2 items (snd (upsert encode normalize_L2 items st)))
                 = snd (upsert encode normalize_L2 items st)).
  { rewrite Hs1. rewrite upsert_aligned_state; [| reflexivity | reflexivity | exact Hne].
    cbn [meta_df]. rewrite kept_idem. reflexivity. }
  apply injective_projections; [|exact Hsnd].
  rewrite (upsert_response encode normalize_L2 _ items); [| rewrite Hs1; reflexivity | exact Hne].
  rewrite (upsert_response encode normalize_L2 st items Hr Hne).
  rewrite Hsnd; reflexivity.
Qed.

(** When the stored ids are pairwise distinct and the batch's ids are
    pairwise distinct, the ids stored after [upsert] are pairwise
    distinct. *)
Theorem upsert_keeps_ids_distinct (st : store vec) (items : list item)
  (Hd : NoDup (map row_id (meta_df st))) (Hi : NoDup (map it_id items)) :
  NoDup (map row_id (meta_df (snd (upsert encode normalize_L2 items st)))).
Proof.
  destruct (ready st) eqn:Hr.
  2:{ unfold upsert; rewrite Hr; exact Hd. }
  destruct items as [|it items].
  { unfold upsert; rewrite Hr; exact Hd. }
  rewrite (upsert_meta encode normalize_L2 st (it :: items) Hr ltac:(discriminate)).
  rewrite map_app, map_map. apply NoDup_app.
  - apply nodup_map_filter; exact Hd.
  - exact Hi.
  - intros a Ha Hb.
    apply in_map_iff in Ha as [r [<- Hr']]. apply filter_In in Hr' as [_ Hn].
    rewrite (isin_in (row_id r) (map it_id (it :: items)) Hb) in Hn; discriminate.
Qed.

(** A search with a non-blank query on a ready aligned store returns
    [min(top_k', n)] results, where [top_k'] is [top_k] clamped to
    [1..50] and [n] the number of stored rows, in non-increasing score
    order. *)
Theorem search_ranked_count (st : store vec) (q : pystr) (k : Z)
  (Hr : ready st = true) (Hal : aligned encode normalize_L2 st) (Hq : strip q <> []) :
  exists res, fst (search encode normalize_L2 inner q k st) = Ok res /\
    length res = Nat.min (Z.to_nat (Z.max 1 (Z.min k 50))) (length (meta_df st)) /\
    StronglySorted (fun a b => (sr_score b <= sr_score a)%Q) res.
Proof.
  destruct (search_core encode normalize_L2 inner st q k Hr Hal Hq) as [top [Hs [Hl [Hso _]]]].
  eexists; split; [exact Hs|].
  split; [rewrite length_map; exact Hl|].
  apply (SS_map (fun a b : Q * Z => (fst b <= fst a)%Q)); [|exact Hso].
  intros [s1 i1] [s2 i2] H; exact H.
Qed.

(** Each search result is a stored row, given with its id, text and
    metadata and scored by the inner product of the normalized query
    embedding with the row's normalized text embedding; no row position
    is returned twice. *)
Theorem search_results_are_rows (st : store vec) (q : pystr) (k : Z)
  (Hr : ready st = true) (Hal : aligned encode normalize_L2 st) (Hq : strip q <> []) :
  exists res ps, fst (search encode normalize_L2 inner q k st) = Ok res /\ NoDup ps /\
    Forall2 (fun p res => exists r, nth_error (meta_df st) p = Some r /\
      res = mk_result (row_id r) (row_text r) (row_metadata r)
              (inner (normalize_L2 (encode (strip q))) (normalize_L2 (encode (row_text r)))))
      ps res.
Proof.
  destruct (search_core encode normalize_L2 inner st q k Hr Hal Hq) as [top [Hs [_ [_ [Hn Hin]]]]].
  destruct (rows_of_top (meta_df st)
              (fun r => inner (normalize_L2 (encode (strip q))) (normalize_L2 (encode (row_text r))))
              top Hn Hin) as [H1 H2].
  eexists; eexists; split; [exact Hs|]. split; [exact H1 | exact H2].
Qed.

(** [reset] on a ready store answers "All data cleared" with a total of
    0, persists an empty index and frame, after which every search returns
    no result and the next upsert stores exactly its batch's rows. *)
Theorem reset_clears_store (st : store vec) (Hr : ready st = true) :
  fst (reset st) = Ok [(of_ascii "message", PyStr (of_ascii "All data cleared"));
                       (of_ascii "total_items", PyInt 0)] /\
  snd (reset st) = mk_store true [] [] (Some ([], [])) /\
  (forall q k, fst (search encode normalize_L2 inner q k (snd (reset st))) = Ok []) /\
  (forall items, meta_df (snd (upsert encode normalize_L2 items (snd (reset st))))
                 = map to_row items).
Proof.
  assert (Hs : snd (reset st) = mk_store true [] [] (Some ([], [])))
    by (unfold reset; rewrite Hr; reflexivity).
  split; [unfold reset; rewrite Hr; reflexivity|].
  split; [exact Hs|]. rewrite Hs. split.
  - intros q k; unfold search; cbn [negb ready]. destruct (strip q); reflexivity.
  - intros items; destruct items as [|it items]; [reflexivity|].
    rewrite (upsert_meta encode normalize_L2 (mk_store true [] [] (Some ([], []))) (it :: items)
               eq_refl ltac:(discriminate)).
    reflexivity.
Qed.

End StoreExtras.

(** ** Context block and chat endpoint *)
Section ChatProofs.

Import Context Chat.
Local Open Scope Z_scope.

Lemma rstrip_app_nonspace x c y :
  is_space c = false -> exists u, rstrip (x ++ c :: y) = x ++ c :: u.
Proof.
  intros E; unfold rstrip.
  rewrite rev_app_distr; cbn [rev]; rewrite <- app_assoc; cbn [app].
  rewrite lstrip_app, (lstrip_nonspace c (rev x) E).
  destruct (lstrip (rev y)) as [|d z].
  - exists []. change (rev (c :: rev x)) with (rev (rev x) ++ [c]).
    rewrite rev_involutive; reflexivity.
  - exists (rev (d :: z)). rewrite rev_app_distr.
    change (rev (c :: rev x)) with (rev (rev x) ++ [c]).
    rewrite rev_involutive, <- app_assoc; reflexivity.
Qed.

Lemma rstrip_app_spaces x c y :
  is_space c = false -> forallb is_space y = true -> rstrip (x ++ c :: y) = x ++ [c].
Proof.
  intros E Hy; unfold rstrip.
  rewrite rev_app_distr; cbn [rev]; rewrite <- app_assoc; cbn [app].
  rewrite lstrip_app, lstrip_all_space.
  - rewrite (lstrip_nonspace c (rev x) E); cbn [rev]; rewrite rev_involutive; reflexivity.
  - rewrite forallb_forall in Hy |- *; intros a Ha; apply Hy, in_rev; exact Ha.
Qed.

Lemma contains_rstrip sub s : contains sub (rstrip s) = true -> contains sub s = true.
Proof.
  intros H; destruct (rstrip_prefix s) as [y Hy].
  rewrite Hy; apply (contains_infix sub []); exact H.
Qed.

Lemma pack_mono (l1 l2 : Z) (i running : Z) (rs : list ctx_result) :
  l1 <= l2 -> exists extra, pack l2 i running rs = pack l1 i running rs ++ extra.
Proof.
  revert i running; induction rs as [|r rs IH]; intros i running H; cbn [pack];
    [exists []; reflexivity|].
  destruct (l1 <? running + Z.of_nat (length (render_snippet i r))) eqn:E1.
  - eexists; reflexivity.
  - replace (l2 <? running + Z.of_nat (length (render_snippet i r))) with false
      by (symmetry; apply Z.ltb_ge; apply Z.ltb_ge in E1; lia).
    destruct (IH (i + 1) (running + Z.of_nat (length (render_snippet i r))) H) as [extra Hx].
    exists extra; rewrite Hx; reflexivity.
Qed.

Lemma list_set_length {A} (l : list A) i x : length (list_set l i x) = length l.
Proof.
  revert i; induction l as [|a l IH]; intros [|i]; simpl; try reflexivity; now rewrite IH.
Qed.

Lemma list_set_nth_eq {A} (l : list A) i x y :
  nth_error l i = Some y -> nth_error (list_set l i x) i = Some x.
Proof.
  revert i; induction l as [|a l IH]; intros [|i] H; simpl in *; try discriminate; auto.
Qed.

Lemma list_set_nth_neq {A} (l : list A) i j x :
  j <> i -> nth_error (list_set l i x) j = nth_error l j.
Proof.
  revert i j; induction l as [|a l IH]; intros [|i] [|j] H; simpl; try reflexivity;
    [congruence|]. apply IH; congruence.
Qed.

Lemma list_set_twice {A} (l : list A) i x y : list_set (list_set l i x) i y = list_set l i y.
Proof.
  revert i; induction l as [|a l IH]; intros [|i]; simpl; try reflexivity; now rewrite IH.
Qed.

Lemma find_ext_in {A} (f g : A -> bool) (l : list A) :
  (forall x, In x l -> f x = g x) -> find f l = find g l.
Proof.
  induction l as [|a l IH]; simpl; intros H; [reflexivity|].
  rewrite (H a (or_introl eq_refl)). destruct (g a); [reflexivity|].
  apply IH; intros x Hx; apply H; right; exact Hx.
Qed.

(** Replacing the message at [i] by one with the same role keeps the
    position of the last user message. *)
Lemma last_user_idx_set (msgs : list message) i m m' :
  nth_error msgs i = Some m -> role m' = role m ->
  last_user_idx (list_set msgs i m') = last_user_idx msgs.
Proof.
  intros Hm Hr; unfold last_user_idx; rewrite list_set_length.
  apply find_ext_in; intros j _.
  destruct (Nat.eq_dec j i) as [-> | Hne].
  - rewrite (list_set_nth_eq msgs i m' m Hm), Hm. unfold is_user; rewrite Hr; reflexivity.
  - rewrite (list_set_nth_neq msgs i j m' Hne); reflexivity.
Qed.

Lemma last_user_none (msgs : list message) :
  last_user_msg msgs = None -> last_user_idx msgs = None.
Proof.
  unfold last_user_msg, last_user_idx; intros H.
  destruct (find is_user (rev msgs)) eqn:Ef; [discriminate|].
  pose proof (find_none is_user (rev msgs) Ef) as Hn.
  destruct (find _ (rev (seq 0 (length msgs)))) as [i|] eqn:Ei; [|reflexivity].
  apply find_some in Ei as [_ Hp].
  destruct (nth_error msgs i) as [m|] eqn:Em; [|discriminate].
  rewrite (Hn m (proj1 (in_rev msgs m) (nth_error_In msgs i Em))) in Hp; discriminate.
Qed.

Lemma apply_think_mode_at (think_mode : bool) (msgs : list message) i m :
  last_user_idx msgs = Some i -> nth_error msgs i = Some m ->
  apply_think_mode think_mode msgs =
    if contains (of_ascii "/no_think") (content m) then msgs
    else list_set msgs i
           (mk_msg (role m)
              (if think_mode then rstrip (content m)
               else rstrip (content m) ++ of_ascii " /no_think")).
Proof. intros Hi Hm; unfold apply_think_mode; rewrite Hi, Hm; reflexivity. Qed.

Lemma contains_no_think_suffix (c : pystr) :
  contains (of_ascii "/no_think") (c ++ of_ascii " /no_think") = true.
Proof.
  change (of_ascii " /no_think") with ([32] ++ of_ascii "/no_think" ++ []).
  rewrite app_assoc. apply contains_infix. reflexivity.
Qed.

(** For non-empty search results, the context block starts with the
    preamble sentence, so it is never empty and a context system message
    is always injected; when no snippet fits the budget the block is
    exactly that sentence. *)
Theorem context_block_preamble (results : list ctx_result) (limit_chars : Z)
  (Hne : results <> []) :
  exists rest,
    fst (build_context_block results limit_chars)
      = of_ascii "You have access to the following context passages. Cite them when relevant."
        ++ rest /\
    (snd (build_context_block results limit_chars) = 0%nat -> rest = []).
Proof.
  destruct results as [|r0 rs0]; [congruence|].
  unfold build_context_block.
  set (sn := pack limit_chars 1 0 (r0 :: rs0)).
  set (S0 := of_ascii "You have access to the following context passages. Cite them when relevant.").
  assert (HS : exists x, S0 = x ++ [46])
    by (exists (of_ascii "You have access to the following context passages. Cite them when relevant");
        reflexivity).
  destruct HS as [x Hx].
  assert (Hl : forall t, lstrip (S0 ++ t) = S0 ++ t) by (intros t; reflexivity).
  cbn [fst snd].
  destruct sn as [|s1 sn'] eqn:Esn.
  - exists []. split; [|reflexivity].
    unfold join, preamble, strip. fold S0. rewrite Hl, Hx, <- app_assoc.
    rewrite app_nil_r. apply rstrip_app_spaces; reflexivity.
  - change (join [10] (preamble :: s1 :: sn'))
      with (preamble ++ [10] ++ join [10] (s1 :: sn')).
    unfold preamble, strip. fold S0.
    rewrite <- !app_assoc, Hl, Hx, <- !app_assoc. cbn [app].
    match goal with
    | |- context [rstrip (x ++ 46 :: ?y)] =>
        destruct (rstrip_app_nonspace x 46 y eq_refl) as [u Hu]; rewrite Hu
    end.
    exists u. split; [rewrite <- app_assoc; reflexivity | intros H; discriminate H].
Qed.

(** A larger character budget keeps every snippet a smaller one includes
    (it can only add snippets after them), so the number of chunks sent
    never decreases as the budget grows. *)
Theorem context_budget_monotone (results : list ctx_result) (l1 l2 : Z) (Hle : l1 <= l2) :
  (exists extra, pack l2 1 0 results = pack l1 1 0 results ++ extra) /\
  (snd (build_context_block results l1) <= snd (build_context_block results l2))%nat.
Proof.
  destruct (pack_mono l1 l2 1 0 results Hle) as [extra Hx].
  split; [exists extra; exact Hx|].
  unfold build_context_block; destruct results as [|r rs]; [reflexivity|].
  cbn [snd]. rewrite Hx, length_app; lia.
Qed.

(** When the conversation has no user message, or its last user message
    is empty, the chat endpoint searches nothing: no chunk is counted, no
    context is injected, and the messages sent are the request's after the
    think-mode edit (unchanged when there is no user message). *)
Theorem chat_without_query (think_mode : bool) (faiss : pystr -> option (list ctx_result))
  (min_score : Q) (limit_chars : Z) (base_messages : list message)
  (Hq : last_user_msg base_messages = None \/ last_user_msg base_messages = Some []) :
  snd (chat_messages think_mode faiss min_score limit_chars base_messages) = 0%nat /\
  fst (chat_messages think_mode faiss min_score limit_chars base_messages)
    = apply_think_mode think_mode base_messages /\
  (last_user_msg base_messages = None -> apply_think_mode think_mode base_messages = base_messages).
Proof.
  split; [|split].
  - unfold chat_messages; destruct Hq as [H | H]; rewrite H; reflexivity.
  - unfold chat_messages; destruct Hq as [H | H]; rewrite H; reflexivity.
  - intros H; unfold apply_think_mode; rewrite (last_user_none _ H); reflexivity.
Qed.

(** The think-mode edit changes at most the last user message: the
    message count, every other message and the position of the last user
    message are kept; that message keeps its role, and afterwards it
    contains "/no_think" when thinking is off, and contains it exactly when
    it did before when thinking is on. *)
Theorem think_mode_edits_last_user (think_mode : bool) (msgs : list message) (i : nat)
  (m : message) (Hi : last_user_idx msgs = Some i) (Hm : nth_error msgs i = Some m) :
  let out := apply_think_mode think_mode msgs in
  length out = length msgs /\
  (forall j, j <> i -> nth_error out j = nth_error msgs j) /\
  last_user_idx out = Some i /\
  exists m', nth_error out i = Some m' /\ role m' = role m /\
    contains (of_ascii "/no_think") (content m')
      = negb think_mode || contains (of_ascii "/no_think") (content m).
Proof.
  intros out; subst out.
  rewrite (apply_think_mode_at think_mode msgs i m Hi Hm).
  destruct (contains (of_ascii "/no_think") (content m)) eqn:Ec.
  - split; [reflexivity|]. split; [reflexivity|]. split; [exact Hi|].
    exists m; split; [exact Hm|]. split; [reflexivity|]. rewrite Ec, orb_true_r; reflexivity.
  - set (m' := mk_msg (role m) (if think_mode then rstrip (content m)
                                else rstrip (content m) ++ of_ascii " /no_think")).
    split; [apply list_set_length|].
    split; [intros j Hj; apply list_set_nth_neq; exact Hj|].
    split; [rewrite (last_user_idx_set msgs i m m' Hm eq_refl); exact Hi|].
    exists m'; split; [exact (list_set_nth_eq msgs i m' m Hm)|]. split; [reflexivity|].
    rewrite orb_false_r. subst m'; cbn [content].
    destruct think_mode; cbn [negb].
    + destruct (contains (of_ascii "/no_think") (rstrip (content m))) eqn:E; [|reflexivity].
      rewrite (contains_rstrip _ _ E) in Ec; discriminate.
    + apply contains_no_think_suffix.
Qed.

(** Applying the think-mode edit a second time changes nothing. *)
Theorem think_mode_idempotent (think_mode : bool) (msgs : list message) :
  apply_think_mode think_mode (apply_think_mode think_mode msgs)
  = apply_think_mode think_mode msgs.
Proof.
  destruct (last_user_idx msgs) as [i|] eqn:Hi.
  2:{ unfold apply_think_mode; rewrite Hi, Hi; reflexivity. }
  destruct (nth_error msgs i) as [m|] eqn:Hm.
  2:{ unfold apply_think_mode; rewrite Hi, Hm, Hi, Hm; reflexivity. }
  rewrite (apply_think_mode_at think_mode msgs i m Hi Hm).
  destruct (contains (of_ascii "/no_think") (content m)) eqn:Ec.
  { rewrite (apply_think_mode_at think_mode msgs i m Hi Hm), Ec; reflexivity. }
  set (m' := mk_msg (role m) (if think_mode then rstrip (content m)
                              else rstrip (content m) ++ of_ascii " /no_think")).
  assert (Hi' : last_user_idx (list_set msgs i m') = Some i)
    by (rewrite (last_user_idx_set msgs i m m' Hm eq_refl); exact Hi).
  rewrite (apply_think_mode_at think_mode (list_set msgs i m') i m' Hi'
             (list_set_nth_eq msgs i m' m Hm)).
  subst m'; cbn [content role].
  destruct think_mode.
  - destruct (contains (of_ascii "/no_think") (rstrip (content m))) eqn:E.
    + rewrite (contains_rstrip _ _ E) in Ec; discriminate.
    + rewrite list_set_twice, rstrip_idem; reflexivity.
  - rewrite contains_no_think_suffix; reflexivity.
Qed.

End ChatProofs.

(** ** Instances of the properties above on concrete inputs *)
Section ExtraWitnesses.

Import Ingest Context Chat.
Local Open Scope Z_scope.

Local Ltac not_in := vm_compute; intros Hin; repeat (destruct Hin as [Hin|Hin]; [discriminate Hin|]); exact Hin.
Local Ltac nodup_concrete := vm_compute; repeat constructor; not_in.

Lemma parse_thinking_roundtrip_witness :
  contains think_end_tag (of_ascii " The answer is 4. ") = false /\
  parse_thinking_content
    (of_ascii "<think>" ++ of_ascii " 2+2 " ++ think_end_tag ++ of_ascii " The answer is 4. ")
  = (strip (of_ascii " 2+2 "), strip (of_ascii " The answer is 4. ")).
Proof.
  split; [reflexivity|].
  apply parse_thinking_roundtrip; reflexivity.
Defined.

Lemma s3_object_uri_roundtrip_witness :
  ~ In 47 (of_ascii "llasta-rag") /\ endswith (of_ascii "/") (of_ascii "PDF-Financial/a.pdf") = false /\
  parse_s3_uri (s3_object_uri (of_ascii "llasta-rag") (of_ascii "PDF-Financial/a.pdf"))
  = Some (of_ascii "llasta-rag", of_ascii "PDF-Financial/a.pdf").
Proof.
  split; [not_in|]. split; [reflexivity|].
  apply s3_object_uri_roundtrip; [not_in | reflexivity].
Defined.

Lemma make_chunks_provenance_witness :
  let cs := make_chunks (fun s => s) (of_ascii "doc") (of_ascii "s3://b/doc.pdf")
              [of_ascii "short"; of_ascii "  Statement   of  Account, page two  "] in
  let c := hd (mk_chunk [] [] [] [] 0) cs in
  In c cs /\
  exists p raw, 1 <= p /\ nth_error [of_ascii "short"; of_ascii "  Statement   of  Account, page two  "]
                            (Z.to_nat (p - 1)) = Some raw /\
    c_text c = clean_text raw /\ (20 <= Z.of_nat (length (c_text c))) /\
    c_id c = of_ascii "doc" ++ of_ascii "#page-" ++ zfill4 p /\
    page_of c = Some (PyInt p) /\
    c_row_hash c = c_text c /\ c_token_count c = count_words false (c_text c).
Proof.
  intros cs c.
  split; [vm_compute; left; reflexivity|].
  apply (make_chunks_provenance (fun s => s) (of_ascii "doc") (of_ascii "s3://b/doc.pdf")
           [of_ascii "short"; of_ascii "  Statement   of  Account, page two  "]).
  vm_compute; left; reflexivity.
Defined.

Lemma upsert_idempotent_witness :
  aligned toy_encode toy_norm store_one_x /\
  upsert toy_encode toy_norm [item_of "x" "beta"; item_of "y" "gamma"]
    (snd (upsert toy_encode toy_norm [item_of "x" "beta"; item_of "y" "gamma"] store_one_x))
  = upsert toy_encode toy_norm [item_of "x" "beta"; item_of "y" "gamma"] store_one_x.
Proof.
  split; [reflexivity|].
  apply upsert_idempotent; reflexivity.
Defined.

Lemma upsert_keeps_ids_distinct_witness :
  NoDup (map row_id (meta_df store_one_x)) /\
  NoDup (map it_id [item_of "x" "beta"; item_of "y" "gamma"]) /\
  NoDup (map row_id (meta_df (snd (upsert toy_encode toy_norm
                                      [item_of "x" "beta"; item_of "y" "gamma"] store_one_x)))).
Proof.
  split; [nodup_concrete|]. split; [nodup_concrete|].
  apply upsert_keeps_ids_distinct; nodup_concrete.
Defined.

Lemma search_ranked_count_witness :
  let st := snd (upsert toy_encode toy_norm [item_of "y" "gamma"; item_of "z" "zeta!"] store_one_x) in
  ready st = true /\ aligned toy_encode toy_norm st /\ strip (of_ascii " ab ") <> [] /\
  exists res, fst (search toy_encode toy_norm toy_inner (of_ascii " ab ") 2 st) = Ok res /\
    length res = Nat.min (Z.to_nat (Z.max 1 (Z.min 2 50))) (length (meta_df st)) /\
    StronglySorted (fun a b => (sr_score b <= sr_score a)%Q) res.
Proof.
  intros st.
  split; [reflexivity|]. split; [reflexivity|]. split; [vm_compute; discriminate|].
  apply search_ranked_count; [reflexivity | reflexivity | vm_compute; discriminate].
Defined.

Lemma search_results_are_rows_witness :
  let st := snd (upsert toy_encode toy_norm [item_of "y" "gamma"; item_of "z" "zeta!"] store_one_x) in
  ready st = true /\ aligned toy_encode toy_norm st /\ strip (of_ascii "ab") <> [] /\
  exists res ps, fst (search toy_encode toy_norm toy_inner (of_ascii "ab") 5 st) = Ok res /\
    NoDup ps /\
    Forall2 (fun p res => exists r, nth_error (meta_df st) p = Some r /\
      res = mk_result (row_id r) (row_text r) (row_metadata r)
              (toy_inner (toy_norm (toy_encode (strip (of_ascii "ab"))))
                         (toy_norm (toy_encode (row_text r))))) ps res.
Proof.
  intros st.
  split; [reflexivity|]. split; [reflexivity|]. split; [vm_compute; discriminate|].
  apply search_results_are_rows; [reflexivity | reflexivity | vm_compute; discriminate].
Defined.

Lemma reset_clears_store_witness :
  ready store_one_x = true /\
  fst (reset store_one_x) = Ok [(of_ascii "message", PyStr (of_ascii "All data cleared"));
                                (of_ascii "total_items", PyInt 0)] /\
  snd (reset store_one_x) = mk_store true [] [] (Some ([], [])) /\
  (forall q k, fst (search toy_encode toy_norm toy_inner q k (snd (reset store_one_x))) = Ok []) /\
  (forall items, meta_df (snd (upsert toy_encode toy_norm items (snd (reset store_one_x))))
                 = map to_row items).
Proof.
  split; [reflexivity|].
  apply (reset_clears_store toy_encode toy_norm toy_inner); reflexivity.
Defined.

Lemma context_block_preamble_witness :
  [mk_ctx (Some (of_ascii "Balance: 100 EUR")) None (Some 1%Q)] <> [] /\
  exists rest,
    fst (build_context_block [mk_ctx (Some (of_ascii "Balance: 100 EUR")) None (Some 1%Q)] 10)
      = of_ascii "You have access to the following context passages. Cite them when relevant."
        ++ rest /\
    (snd (build_context_block [mk_ctx (Some (of_ascii "Balance: 100 EUR")) None (Some 1%Q)] 10)
       = 0%nat -> rest = []).
Proof.
  split; [discriminate|].
  apply context_block_preamble; discriminate.
Defined.

Lemma context_budget_monotone_witness :
  let rs := [mk_ctx (Some (of_ascii "Balance: 100 EUR")) None (Some 1%Q);
             mk_ctx (Some (of_ascii "Due date: 2024-01-31")) None (Some (3 # 4))] in
  (40 <= 4000)%Z /\
  (exists extra, pack 4000 1 0 rs = pack 40 1 0 rs ++ extra) /\
  (snd (build_context_block rs 40) <= snd (build_context_block rs 4000))%nat.
Proof.
  intros rs.
  split; [lia|].
  apply context_budget_monotone; lia.
Defined.

Lemma chat_without_query_witness :
  let base := [mk_msg (of_ascii "system") (of_ascii "Be brief.")] in
  (last_user_msg base = None \/ last_user_msg base = Some []) /\
  snd (chat_messages false (fun _ => None) (1 # 2) 4000 base) = 0%nat /\
  fst (chat_messages false (fun _ => None) (1 # 2) 4000 base) = apply_think_mode false base /\
  (last_user_msg base = None -> apply_think_mode false base = base).
Proof.
  intros base.
  split; [left; reflexivity|].
  apply chat_without_query; left; reflexivity.
Defined.

Lemma think_mode_edits_last_user_witness :
  let msgs := [mk_msg (of_ascii "user") (of_ascii "Hello  ");
               mk_msg (of_ascii "assistant") (of_ascii "Hi")] in
  last_user_idx msgs = Some 0%nat /\
  nth_error msgs 0 = Some (mk_msg (of_ascii "user") (of_ascii "Hello  ")) /\
  (let out := apply_think_mode false msgs in
   length out = length msgs /\
   (forall j, j <> 0%nat -> nth_error out j = nth_error msgs j) /\
   last_user_idx out = Some 0%nat /\
   exists m', nth_error out 0 = Some m' /\ role m' = role (mk_msg (of_ascii "user") (of_ascii "Hello  ")) /\
     contains (of_ascii "/no_think") (content m')
       = negb false || contains (of_ascii "/no_think") (content (mk_msg (of_ascii "user") (of_ascii "Hello  ")))).
Proof.
  intros msgs.
  split; [reflexivity|]. split; [reflexivity|].
  apply think_mode_edits_last_user; reflexivity.
Defined.

End ExtraWitnesses.
